(** * aiobreaker: the circuit breaker controller

    A shallow embedding of [aiobreaker/circuitbreaker.py] (class
    [CircuitBreaker]) and of the collaborators it imports: the state
    classes, the in-memory storage and the listener hook.

    The controller runs inside a [World]: the breaker object itself, the
    wall clock read by [datetime] calls, the history of observable events
    (listener notifications, dispatches, executions of user functions) and
    an allocator of object identities.  Python statements are state
    transformers over that world, and code that may raise ends in a
    [completion]: what it returns, or the error it raises. *)

From Stdlib Require Import ZArith List String Bool Lia Arith.
Import ListNotations.

Open Scope Z_scope.

(** ** Time

    [datetime] and [timedelta] have microsecond resolution and are both
    counted in whole microseconds. *)

Definition datetime := Z.
Definition timedelta := Z.

Definition timedelta_seconds (s : Z) : timedelta := s * 1000000.

(** ** Exception classes

    A class is known by its name and its method resolution order;
    [issubclass C E] looks [E] up in the MRO of [C], which starts with [C]
    itself.  With a tuple as second argument it holds when it holds of one
    member, and never for the empty tuple. *)

Record pytype := { ty_name : string; ty_bases : list string }.

Definition mro (C : pytype) : list string := ty_name C :: ty_bases C.

Definition issubclass (C E : pytype) : bool :=
  existsb (String.eqb (ty_name E)) (mro C).

Definition issubclass_tuple (C : pytype) (Es : list pytype) : bool :=
  existsb (issubclass C) Es.

Definition pytype_eqb (C E : pytype) : bool := String.eqb (ty_name C) (ty_name E).

Definition BaseException_type : pytype :=
  {| ty_name := "BaseException"; ty_bases := ["object"%string] |}.

Definition Exception_type : pytype :=
  {| ty_name := "Exception"; ty_bases := mro BaseException_type |}.

Definition CircuitBreakerError_type : pytype :=
  {| ty_name := "CircuitBreakerError"; ty_bases := mro Exception_type |}.

Definition TypeError_type : pytype :=
  {| ty_name := "TypeError"; ty_bases := mro Exception_type |}.

(** Modelled from the spec: the breaker's own error class (state.py) is
    not part of the sources.  It is a distinct error kind that carries the
    time remaining until the next trial is permitted.  An exception
    object is either an error of some class raised by user code, or that
    error. *)

Inductive exception :=
| Exc (ty : pytype) (message : string)
| CircuitBreakerError (message : string) (time_remaining : timedelta).

Definition type_of (e : exception) : pytype :=
  match e with
  | Exc ty _ => ty
  | CircuitBreakerError _ _ => CircuitBreakerError_type
  end.

(** ** Values, outcomes and functions *)

Inductive pyvalue := VNone | VInt (z : Z) | VStr (s : string).

(** How a piece of code ends: it returns something or it raises. *)
Inductive completion (A : Type) :=
| Returns (v : A)
| Raises (e : exception).

Arguments Returns {A} v.
Arguments Raises {A} e.

(** How the body of a function ends: with a value or with an error. *)
Definition outcome : Type := completion pyvalue.

(** A function object is either a plain function, a [def] or an
    [async def] ([is_coroutine]), which has no [_ignore_on_call]
    attribute, or a closure built by the breaker's decorator around
    [func], on which [__call__] sets [_ignore_on_call].  The closure is
    [_inner_wrapper_async], itself an [async def], when [func] is a
    coroutine function, and [_inner_wrapper] otherwise.  Running the body
    of a plain function takes [duration] microseconds of wall-clock
    time. *)

Inductive callable :=
| PyFunction (name : string) (is_coroutine : bool)
             (body : list pyvalue -> outcome) (duration : timedelta)
| InnerWrapper (ignore_on_call : bool) (func : callable).

(** [getattr(func, "_ignore_on_call", False)] *)
Definition getattr_ignore_on_call (func : callable) : bool :=
  match func with
  | PyFunction _ _ _ _ => false
  | InnerWrapper ignore _ => ignore
  end.

(** [inspect.iscoroutinefunction]: of a closure of the decorator it is
    what it is of the function the closure was chosen for. *)
Fixpoint iscoroutinefunction (func : callable) : bool :=
  match func with
  | PyFunction _ c _ _ => c
  | InnerWrapper _ f => iscoroutinefunction f
  end.

(** What a call expression [f(args)] evaluates to: a value, or, when [f]
    is a coroutine function, the coroutine object of that call, of which
    nothing has run yet. *)
Inductive returned :=
| Value (v : pyvalue)
| CoroutineObject (func : callable) (args : list pyvalue).

Definition value_of (r : outcome) : completion returned :=
  match r with
  | Returns v => Returns (Value v)
  | Raises e => Raises e
  end.

(** What may be handed to the decorator as a positional argument. *)
Inductive pyobject :=
| ObjValue (v : pyvalue)
| ObjFunction (f : callable)
| ObjClass (c : pytype).


(** ** State tags, state objects, storage, listeners *)

(** Modelled from the spec: the enumeration of state tags (state.py) is
    not part of the sources; the tags are Closed, Open and Half-Open. *)
Inductive CircuitBreakerState := CLOSED | OPEN | HALF_OPEN.

Definition tag_eqb (a b : CircuitBreakerState) : bool :=
  match a, b with
  | CLOSED, CLOSED | OPEN, OPEN | HALF_OPEN, HALF_OPEN => true
  | _, _ => false
  end.

(** Modelled from the spec: the state classes of [aiobreaker/state.py]
    are not part of the sources.  A state is a variant tagged by Closed,
    Open or Half-Open; each holds a back-reference to its owning
    controller and, for Open, the timestamp at which it was entered.  A
    state is immutable once constructed. *)
Inductive StateVariant :=
| CircuitClosedState
| CircuitOpenState (opened_at : datetime)
| CircuitHalfOpenState.

(** Modelled from the spec: a state object, of one of the three
    variants, with its identity and its back-reference. *)
Record StateObj := {
  so_id : nat;              (* identity of the object *)
  so_breaker : nat;         (* identity of the owning controller *)
  so_variant : StateVariant
}.

Definition variant_tag (v : StateVariant) : CircuitBreakerState :=
  match v with
  | CircuitClosedState => CLOSED
  | CircuitOpenState _ => OPEN
  | CircuitHalfOpenState => HALF_OPEN
  end.

(** The [state] attribute of a state object. *)
Definition so_state (s : StateObj) : CircuitBreakerState :=
  variant_tag (so_variant s).

(** Modelled from the spec: the storage of [aiobreaker/storage] is not
    part of the sources.  It abstracts two mutable cells, the current
    state tag and the failure counter, behind getState, setState,
    getCounter, incrementCounter and resetCounter. *)
Record CircuitBreakerStorage := {
  sto_state : CircuitBreakerState;
  sto_counter : Z
}.

(** Modelled from the spec: the in-memory reference storage
    (storage/memory.py), built with its initial tag and no failure
    counted. *)
Definition CircuitMemoryStorage (initial : CircuitBreakerState) : CircuitBreakerStorage :=
  {| sto_state := initial; sto_counter := 0 |}.

(** Modelled from the spec: setState of the storage interface. *)
Definition storage_set_state (t : CircuitBreakerState) (s : CircuitBreakerStorage) :=
  {| sto_state := t; sto_counter := sto_counter s |}.

(** Modelled from the spec: incrementCounter of the storage interface. *)
Definition increment_counter (s : CircuitBreakerStorage) :=
  {| sto_state := sto_state s; sto_counter := sto_counter s + 1 |}.

(** Modelled from the spec: resetCounter of the storage interface. *)
Definition reset_counter (s : CircuitBreakerStorage) :=
  {| sto_state := sto_state s; sto_counter := 0 |}.

(** Modelled from the spec: the listener interface (listener.py) is not
    part of the sources.  A listener has a single notification method
    taking the breaker, the previous and the new state, and returning
    nothing; it is known here by its identity. *)
Definition listener := nat.

(** ** The controller object *)

Record CircuitBreaker := {
  self_id : nat;
  _lock : nat;   (* re-entrancy depth of the RLock in the calling thread *)
  _state_storage : CircuitBreakerStorage;
  _state : StateObj;
  _fail_max : Z;
  _timeout_duration : timedelta;
  _excluded_exception_types : list pytype;
  _listeners : list listener;
  _name : option string;
  _decorated_functions : list string
}.

Definition with_lock_depth (n : nat) (b : CircuitBreaker) : CircuitBreaker :=
  {| self_id := self_id b; _lock := n; _state_storage := _state_storage b;
     _state := _state b; _fail_max := _fail_max b;
     _timeout_duration := _timeout_duration b;
     _excluded_exception_types := _excluded_exception_types b;
     _listeners := _listeners b; _name := _name b;
     _decorated_functions := _decorated_functions b |}.

Definition with_storage (s : CircuitBreakerStorage) (b : CircuitBreaker) : CircuitBreaker :=
  {| self_id := self_id b; _lock := _lock b; _state_storage := s;
     _state := _state b; _fail_max := _fail_max b;
     _timeout_duration := _timeout_duration b;
     _excluded_exception_types := _excluded_exception_types b;
     _listeners := _listeners b; _name := _name b;
     _decorated_functions := _decorated_functions b |}.

Definition with_state (s : StateObj) (b : CircuitBreaker) : CircuitBreaker :=
  {| self_id := self_id b; _lock := _lock b; _state_storage := _state_storage b;
     _state := s; _fail_max := _fail_max b;
     _timeout_duration := _timeout_duration b;
     _excluded_exception_types := _excluded_exception_types b;
     _listeners := _listeners b; _name := _name b;
     _decorated_functions := _decorated_functions b |}.

Definition with_fail_max (n : Z) (b : CircuitBreaker) : CircuitBreaker :=
  {| self_id := self_id b; _lock := _lock b; _state_storage := _state_storage b;
     _state := _state b; _fail_max := n;
     _timeout_duration := _timeout_duration b;
     _excluded_exception_types := _excluded_exception_types b;
     _listeners := _listeners b; _name := _name b;
     _decorated_functions := _decorated_functions b |}.

Definition with_timeout_duration (t : timedelta) (b : CircuitBreaker) : CircuitBreaker :=
  {| self_id := self_id b; _lock := _lock b; _state_storage := _state_storage b;
     _state := _state b; _fail_max := _fail_max b;
     _timeout_duration := t;
     _excluded_exception_types := _excluded_exception_types b;
     _listeners := _listeners b; _name := _name b;
     _decorated_functions := _decorated_functions b |}.

Definition with_excluded (l : list pytype) (b : CircuitBreaker) : CircuitBreaker :=
  {| self_id := self_id b; _lock := _lock b; _state_storage := _state_storage b;
     _state := _state b; _fail_max := _fail_max b;
     _timeout_duration := _timeout_duration b;
     _excluded_exception_types := l;
     _listeners := _listeners b; _name := _name b;
     _decorated_functions := _decorated_functions b |}.

Definition with_listeners (l : list listener) (b : CircuitBreaker) : CircuitBreaker :=
  {| self_id := self_id b; _lock := _lock b; _state_storage := _state_storage b;
     _state := _state b; _fail_max := _fail_max b;
     _timeout_duration := _timeout_duration b;
     _excluded_exception_types := _excluded_exception_types b;
     _listeners := l; _name := _name b;
     _decorated_functions := _decorated_functions b |}.

Definition with_name (n : option string) (b : CircuitBreaker) : CircuitBreaker :=
  {| self_id := self_id b; _lock := _lock b; _state_storage := _state_storage b;
     _state := _state b; _fail_max := _fail_max b;
     _timeout_duration := _timeout_duration b;
     _excluded_exception_types := _excluded_exception_types b;
     _listeners := _listeners b; _name := n;
     _decorated_functions := _decorated_functions b |}.

(** ** The world *)

Inductive event :=
| state_change (l : listener) (cb : nat) (old_state : option StateObj) (new_state : StateObj)
    (* [listener.state_change(cb, old_state, new_state)] *)
| dispatched (tag : CircuitBreakerState) (lock_depth : nat)
    (* the controller handed a call to the state object of that tag *)
| executed (name : string) (lock_depth : nat).
    (* the body of the plain function [name] ran *)

Record World := {
  breaker : CircuitBreaker;
  clock : datetime;
  trace : list event;     (* oldest event first *)
  next_obj : nat          (* identities below it are in use *)
}.

Definition on_breaker (f : CircuitBreaker -> CircuitBreaker) (w : World) : World :=
  {| breaker := f (breaker w); clock := clock w; trace := trace w;
     next_obj := next_obj w |}.

Definition emit (evs : list event) (w : World) : World :=
  {| breaker := breaker w; clock := clock w; trace := trace w ++ evs;
     next_obj := next_obj w |}.

Definition advance (d : timedelta) (w : World) : World :=
  {| breaker := breaker w; clock := clock w + d; trace := trace w;
     next_obj := next_obj w |}.

Definition alloc (w : World) : World :=
  {| breaker := breaker w; clock := clock w; trace := trace w;
     next_obj := S (next_obj w) |}.

(** Another actor sharing the storage writes a tag into it. *)
Definition external_set_state (t : CircuitBreakerState) (w : World) : World :=
  on_breaker (fun b => with_storage (storage_set_state t (_state_storage b)) b) w.

(** [with self._lock: body]: the lock is re-entrant, acquiring it adds
    one to its depth and leaving the block, by return or by a raised
    error (both are values of the result type here), takes one off. *)
Definition acquire (w : World) : World :=
  on_breaker (fun b => with_lock_depth (S (_lock b)) b) w.

Definition release (w : World) : World :=
  on_breaker (fun b => with_lock_depth (Nat.pred (_lock b)) b) w.

Definition with_lock {A : Type} (body : World -> A * World) (w : World) : A * World :=
  let (r, w') := body (acquire w) in (r, release w').

(** ** State objects (state.py) *)

(** Modelled from the spec: the constructors of the state classes
    (state.py) are not part of the sources.  A new state instance is
    bound to its controller, and an Open state records the timestamp at
    which it is entered. *)
Definition make_state (id owner : nat) (tag : CircuitBreakerState) (now : datetime) : StateObj :=
  {| so_id := id; so_breaker := owner;
     so_variant := match tag with
                   | CLOSED => CircuitClosedState
                   | OPEN => CircuitOpenState now
                   | HALF_OPEN => CircuitHalfOpenState
                   end |}.

(** resetCounter on the storage of the breaker. *)
Definition storage_reset_counter (w : World) : World :=
  on_breaker (fun b => with_storage (reset_counter (_state_storage b)) b) w.

(** Modelled from the spec: on a transition each registered listener
    is invoked synchronously, in registration order, with the breaker,
    the previous state and the new state. *)
Definition notify_state_change (prev_state : option StateObj) (new : StateObj) (w : World) : World :=
  emit (map (fun l => state_change l (self_id (breaker w)) prev_state new)
            (_listeners (breaker w))) w.

(** Modelled from the spec: [new_state.value(breaker, prev_state,
    notify)], the constructor call of the state class named by the tag
    (state.py).  It builds a fresh state object; when the construction is
    a transition ([notify]), entering Closed resets the failure counter
    and the listeners are notified. *)
Definition construct_state (tag : CircuitBreakerState) (prev_state : option StateObj)
    (notify : bool) (w : World) : StateObj * World :=
  let obj := make_state (next_obj w) (self_id (breaker w)) tag (clock w) in
  let w1 := alloc w in
  if notify then
    let w2 := match tag with CLOSED => storage_reset_counter w1 | _ => w1 end in
    (obj, notify_state_change prev_state obj w2)
  else (obj, w1).

(** ** The controller (circuitbreaker.py) *)

(** [fail_counter], [fail_max], [timeout_duration], [current_state],
    [excluded_exceptions], [listeners], [name]: the read-only side of the
    properties. *)
Definition fail_counter (b : CircuitBreaker) : Z := sto_counter (_state_storage b).
Definition fail_max (b : CircuitBreaker) : Z := _fail_max b.
Definition timeout_duration (b : CircuitBreaker) : timedelta := _timeout_duration b.
Definition current_state (b : CircuitBreaker) : CircuitBreakerState := sto_state (_state_storage b).
Definition excluded_exceptions (b : CircuitBreaker) : list pytype := _excluded_exception_types b.
Definition listeners (b : CircuitBreaker) : list listener := _listeners b.
Definition name (b : CircuitBreaker) : option string := _name b.

(** The setters of [fail_max], [timeout_duration] and [name]. *)
Definition set_fail_max (number : Z) (w : World) : World := on_breaker (with_fail_max number) w.
Definition set_timeout_duration (timeout : timedelta) (w : World) : World :=
  on_breaker (with_timeout_duration timeout) w.
Definition set_name (n : option string) (w : World) : World := on_breaker (with_name n) w.

(** [_create_new_state]: every member of the enumeration names a state
    class, so the [KeyError] branch is never taken. *)
Definition _create_new_state (new_state : CircuitBreakerState)
    (prev_state : option StateObj) (notify : bool) (w : World) : StateObj * World :=
  construct_state new_state prev_state notify w.

(** The setter of [state]: builds the new state object, with the cached
    one as its predecessor and with notification, and caches it. *)
Definition set_state (state_str : CircuitBreakerState) (w : World) : World :=
  snd (with_lock (fun w0 =>
         let (obj, w1) := _create_new_state state_str (Some (_state (breaker w0))) true w0 in
         (tt, on_breaker (with_state obj) w1)) w).

(** The getter of [state]: brings the cached state object up to date
    with the storage, then returns it. *)
Definition state (w : World) : StateObj * World :=
  let w' := if negb (tag_eqb (current_state (breaker w)) (so_state (_state (breaker w))))
            then set_state (current_state (breaker w)) w
            else w in
  (_state (breaker w'), w').

(** [list.remove]: drops the first equal element, [None] stands for the
    [ValueError] raised when there is none. *)
Fixpoint list_remove {A : Type} (eqb : A -> A -> bool) (x : A) (l : list A) : option (list A) :=
  match l with
  | [] => None
  | y :: l' => if eqb y x then Some l'
               else match list_remove eqb x l' with
                    | Some r => Some (y :: r)
                    | None => None
                    end
  end.

Definition add_excluded_exception (exception : pytype) (w : World) : World :=
  snd (with_lock (fun w0 =>
         (tt, on_breaker (fun b => with_excluded (_excluded_exception_types b ++ [exception]) b) w0)) w).

Definition add_excluded_exceptions (exceptions : list pytype) (w : World) : World :=
  fold_left (fun w0 exc => add_excluded_exception exc w0) exceptions w.

Definition remove_excluded_exception (exception : pytype) (w : World) : option World :=
  match list_remove pytype_eqb exception (_excluded_exception_types (breaker w)) with
  | Some l => Some (release (on_breaker (with_excluded l) (acquire w)))
  | None => None
  end.

Definition _inc_counter (w : World) : World :=
  on_breaker (fun b => with_storage (increment_counter (_state_storage b)) b) w.

Definition is_system_error (b : CircuitBreaker) (exception : exception) : bool :=
  let exception_type := type_of exception in
  negb (issubclass_tuple exception_type (_excluded_exception_types b)).

(** [open], [half_open], [close].  In the chained assignment
    [self.state = self._state_storage.state = TAG] the targets are
    assigned from left to right: first the [state] setter runs, then the
    tag is written to the storage. *)
Definition transition_to (tag : CircuitBreakerState) (w : World) : World :=
  snd (with_lock (fun w0 =>
         let w1 := set_state tag w0 in
         (tt, on_breaker (fun b => with_storage (storage_set_state tag (_state_storage b)) b) w1)) w).

Definition open (w : World) : World := transition_to OPEN w.
Definition half_open (w : World) : World := transition_to HALF_OPEN w.
Definition close (w : World) : World := transition_to CLOSED w.

Definition add_listener (l : listener) (w : World) : World :=
  snd (with_lock (fun w0 =>
         (tt, on_breaker (fun b => with_listeners (_listeners b ++ [l]) b) w0)) w).

Definition add_listeners (ls : list listener) (w : World) : World :=
  fold_left (fun w0 l => add_listener l w0) ls w.

Definition remove_listener (l : listener) (w : World) : option World :=
  match list_remove Nat.eqb l (_listeners (breaker w)) with
  | Some ls => Some (release (on_breaker (with_listeners ls) (acquire w)))
  | None => None
  end.

(** ** Handling a call in each state (state.py)

    The [call] / [call_async] methods of the state classes are not part
    of the sources.  Both follow the same rules; [fn] is the invocation
    of the protected function on its arguments, the call [func(args)]
    for the blocking method and [await func(args)] for the awaitable
    one, and what it returns, of whatever type, is handed back
    untouched. *)

(** Modelled from the spec: the call handling of the Closed state
    (state.py).  Invoke fn; on success reset the failure counter and
    remain Closed; on a failure that is a system error increment the
    counter and, if the counter now reaches the threshold, transition to
    Open; an excluded failure neither increments nor transitions; the
    original error is re-raised in every case. *)
Definition closed_call {A : Type} (fn : World -> completion A * World) (w : World)
    : completion A * World :=
  let (r, w1) := fn w in
  match r with
  | Returns v => (Returns v, storage_reset_counter w1)
  | Raises e =>
      if is_system_error (breaker w1) e then
        let w2 := _inc_counter w1 in
        if fail_max (breaker w2) <=? fail_counter (breaker w2)
        then (Raises e, open w2)
        else (Raises e, w2)
      else (Raises e, w1)
  end.

(** Modelled from the spec: the call handling of the Half-Open state
    (state.py).  Invoke fn exactly once; on success reset the counter and
    transition to Closed; on a non-excluded failure transition to Open;
    excluded failures do not make that transition and are treated as
    success for state purposes, the trial having passed from the
    breaker's perspective: the counter is reset and the breaker
    transitions to Closed; the error is re-raised regardless. *)
Definition half_open_call {A : Type} (fn : World -> completion A * World) (w : World)
    : completion A * World :=
  let (r, w1) := fn w in
  match r with
  | Returns v => (Returns v, close (storage_reset_counter w1))
  | Raises e =>
      if is_system_error (breaker w1) e then (Raises e, open w1)
      else (Raises e, close (storage_reset_counter w1))
  end.

(** Modelled from the spec: the call handling of the Open state
    (state.py).  Before invoking fn compute the time elapsed since the
    entry timestamp; if it is less than the timeout duration do not call
    fn and fail with a breaker-open error carrying the remaining wait
    time; otherwise transition to Half-Open and perform the Half-Open
    call logic with the same invocation. *)
Definition open_call {A : Type} (opened_at : datetime)
    (fn : World -> completion A * World) (w : World) : completion A * World :=
  let elapsed := clock w - opened_at in
  let timeout := timeout_duration (breaker w) in
  if elapsed <? timeout
  then (Raises (CircuitBreakerError "Timeout not elapsed yet, circuit breaker still open"
                                    (timeout - elapsed)), w)
  else half_open_call fn (half_open w).

(** Modelled from the spec: [state.call(func, ...)] and
    [state.call_async(func, ...)], the handling of the variant of the
    state object (state.py). *)
Definition state_call {A : Type} (st : StateObj) (fn : World -> completion A * World)
    (w : World) : completion A * World :=
  match so_variant st with
  | CircuitClosedState => closed_call fn w
  | CircuitOpenState opened_at => open_call opened_at fn w
  | CircuitHalfOpenState => half_open_call fn w
  end.

(** ** [call] and [call_async] (circuitbreaker.py) *)

(** The locked branch of [call] and of [call_async]:
    [with self._lock: return self.state.call(func, ...)], respectively
    [return await self.state.call_async(func, ...)]. *)
Definition dispatch {A : Type} (fn : World -> completion A * World) (w : World)
    : completion A * World :=
  with_lock (fun w0 =>
    let (st, w1) := state w0 in
    state_call st fn
      (emit [dispatched (so_state st) (_lock (breaker w1))] w1)) w.

(** The body of a plain function runs. *)
Definition run_body (name : string) (body : list pyvalue -> outcome)
    (duration : timedelta) (args : list pyvalue) (w : World) : outcome * World :=
  (body args, advance duration (emit [executed name (_lock (breaker w))] w)).

(** The code of a function runs to its end: this is the call [f(args)]
    of a blocking function, and [await f(args)] of a coroutine function.
    The closure [_inner_wrapper] returns [self.call(func, ...)] and
    [_inner_wrapper_async] returns [await self.call_async(func, ...)];
    [func] being of the kind of its closure, either comes to running
    [func] itself when [func] is marked, and to a dispatch of the run of
    [func] when it is not. *)
Fixpoint execute (f : callable) (args : list pyvalue) (w : World) {struct f}
    : outcome * World :=
  match f with
  | PyFunction name _ body duration => run_body name body duration args w
  | InnerWrapper _ func =>
      if getattr_ignore_on_call func
      then execute func args w
      else dispatch (execute func args) w
  end.

Definition as_values (p : outcome * World) : completion returned * World :=
  (value_of (fst p), snd p).

(** The call expression [f(args)]: calling a coroutine function runs
    nothing and returns a coroutine object. *)
Definition invoke (f : callable) (args : list pyvalue) (w : World)
    : completion returned * World :=
  if iscoroutinefunction f
  then (Returns (CoroutineObject f args), w)
  else as_values (execute f args w).

(** The error of [await] on what is not awaitable. *)
Definition not_awaitable : exception :=
  Exc TypeError_type "object can't be used in 'await' expression".

(** [await r], for [r] what a call expression evaluated to: a coroutine
    object is run to its end; a plain value is not awaitable. *)
Definition await (r : returned) (w : World) : outcome * World :=
  match r with
  | CoroutineObject f args => execute f args w
  | Value _ => (Raises not_awaitable, w)
  end.

(** [await f(args)]: the call is evaluated, and what it returned is
    awaited. *)
Definition invoke_await (f : callable) (args : list pyvalue) (w : World)
    : outcome * World :=
  let (r, w') := invoke f args w in
  match r with
  | Returns x => await x w'
  | Raises e => (Raises e, w')
  end.

(** [call]: a marked function is only called; any other is handed to
    the state object under the lock. *)
Definition call (func : callable) (args : list pyvalue) (w : World)
    : completion returned * World :=
  if getattr_ignore_on_call func
  then invoke func args w
  else dispatch (invoke func args) w.

(** [call_async], awaited. *)
Definition call_async (func : callable) (args : list pyvalue) (w : World)
    : outcome * World :=
  if getattr_ignore_on_call func
  then invoke_await func args w
  else dispatch (invoke_await func args) w.

(** ** The decorator, [__call__] *)

Inductive decorator_result :=
| ReturnsWrapped (return_func : callable)      (* [_outer_wrapper(func)] *)
| ReturnsOuterWrapper (ignore_on_call : bool)  (* the closure [_outer_wrapper] *)
| RaisesTypeError (message : string).

Definition _outer_wrapper (ignore_on_call : bool) (func : callable) : callable :=
  InnerWrapper ignore_on_call func.

Definition default_ignore_on_call : bool := true.

Definition __call__ (call_args : list pyobject) (ignore_on_call : bool)
    (w : World) : decorator_result * World :=
  match call_args with
  | [ObjFunction func] => (ReturnsWrapped (_outer_wrapper ignore_on_call func), w)
  | [] => (ReturnsOuterWrapper ignore_on_call, w)
  | _ => (RaisesTypeError "Decorator does not accept positional arguments.", w)
  end.

(** ** Construction, [__init__]

    A keyword argument that is left out is [None] here; [exclude],
    [listeners] and [state_storage] also default to [None] in the source,
    and the two lists fall back to the empty list when they are empty. *)
Record init_args := {
  arg_fail_max : option Z;
  arg_timeout_duration : option timedelta;
  arg_exclude : option (list pytype);
  arg_listeners : option (list listener);
  arg_state_storage : option CircuitBreakerStorage;
  arg_name : option string
}.

Definition no_args : init_args :=
  {| arg_fail_max := None; arg_timeout_duration := None; arg_exclude := None;
     arg_listeners := None; arg_state_storage := None; arg_name := None |}.

Definition or_default {A : Type} (o : option A) (d : A) : A :=
  match o with Some a => a | None => d end.

(** [__init__]: the first state object is built from the tag in the
    storage, without predecessor and without notification. *)
Definition __init__ (a : init_args) (id : nat) (now : datetime) : World :=
  let storage := or_default (arg_state_storage a) (CircuitMemoryStorage CLOSED) in
  {| breaker :=
       {| self_id := id;
          _lock := 0%nat;
          _state_storage := storage;
          _state := make_state 0 id (sto_state storage) now;
          _fail_max := or_default (arg_fail_max a) 5;
          _timeout_duration := or_default (arg_timeout_duration a) (timedelta_seconds 60);
          _excluded_exception_types := or_default (arg_exclude a) [];
          _listeners := or_default (arg_listeners a) [];
          _name := arg_name a;
          _decorated_functions := [] |};
     clock := now;
     trace := [];
     next_obj := 1 |}.

(** ** Vocabulary of the properties *)


(** The breaker is in a given state when the storage and the cached
    state object agree on it. *)
Definition is_closed (w : World) : Prop :=
  current_state (breaker w) = CLOSED /\
  so_variant (_state (breaker w)) = CircuitClosedState.

Definition is_half_open (w : World) : Prop :=
  current_state (breaker w) = HALF_OPEN /\
  so_variant (_state (breaker w)) = CircuitHalfOpenState.

Definition is_open_since (t0 : datetime) (w : World) : Prop :=
  current_state (breaker w) = OPEN /\
  so_variant (_state (breaker w)) = CircuitOpenState t0.

(** Everything of the controller but its state and storage. *)
Definition same_config (b b' : CircuitBreaker) : Prop :=
  self_id b = self_id b' /\ _lock b = _lock b' /\ _fail_max b = _fail_max b' /\
  _timeout_duration b = _timeout_duration b' /\
  _excluded_exception_types b = _excluded_exception_types b' /\
  _listeners b = _listeners b' /\ _name b = _name b'.

(** A function together with the arguments of one call. *)
Definition invocation : Type := callable * list pyvalue.

Definition raises_system_error (b : CircuitBreaker) (c : invocation) : Prop :=
  match fst c with
  | PyFunction _ _ body _ =>
      exists e, body (snd c) = Raises e /\ is_system_error b e = true
  | InnerWrapper _ _ => False
  end.

Definition succeeds (c : invocation) : Prop :=
  match fst c with
  | PyFunction _ _ body _ => exists v, body (snd c) = Returns v
  | InnerWrapper _ _ => False
  end.

(** The protected call of a function through the entry point made for
    its kind: [cb.call(func, ...)] for a blocking function and
    [await cb.call_async(func, ...)] for a coroutine function. *)
Definition protected_call (func : callable) (args : list pyvalue) (w : World)
    : completion returned * World :=
  if iscoroutinefunction func
  then as_values (call_async func args w)
  else call func args w.

(** What such a call hands to the state object as the invocation of
    the function: [func(args)] for a blocking function, [await
    func(args)] for a coroutine function. *)
Definition protected_invocation (func : callable) (args : list pyvalue) (w : World)
    : completion returned * World :=
  if iscoroutinefunction func
  then as_values (invoke_await func args w)
  else invoke func args w.

(** One protected call after the other through the breaker. *)
Fixpoint call_each (cs : list invocation) (w : World) : World :=
  match cs with
  | [] => w
  | c :: cs' => call_each cs' (snd (protected_call (fst c) (snd c) w))
  end.

Definition is_executed (ev : event) : bool :=
  match ev with executed _ _ => true | _ => false end.

Definition is_dispatched (ev : event) : bool :=
  match ev with dispatched _ _ => true | _ => false end.

(** How often user code ran, and how often a call went through a state
    object, in a history. *)
Definition executions (tr : list event) : nat := List.length (filter is_executed tr).
Definition dispatches (tr : list event) : nat := List.length (filter is_dispatched tr).

(** The notifications of one transition, one per registered listener. *)
Definition notifications (b : CircuitBreaker) (old new : StateObj) : list event :=
  map (fun l => state_change l (self_id b) (Some old) new) (_listeners b).

(** The manual operation that forces the breaker into a given state. *)
Definition manual (tag : CircuitBreakerState) : World -> World :=
  match tag with
  | CLOSED => close
  | OPEN => open
  | HALF_OPEN => half_open
  end.

(** [w'] comes after [w] with the same configuration, [nd] more
    dispatches and at most [ne] more executions of user code. *)
Definition follows (nd ne : nat) (w w' : World) : Prop :=
  same_config (breaker w') (breaker w) /\
  dispatches (trace w') = (dispatches (trace w) + nd)%nat /\
  (executions (trace w') <= executions (trace w) + ne)%nat.

(** The event was recorded with the lock held at depth [k]. *)
Definition under_lock (k : nat) (ev : event) : Prop :=
  match ev with
  | executed _ depth => depth = k
  | dispatched _ depth => depth = k
  | state_change _ _ _ _ => True
  end.

(** The event was recorded with the lock held at depth [k] or deeper. *)
Definition held_from (k : nat) (ev : event) : Prop :=
  match ev with
  | executed _ depth => (k <= depth)%nat
  | dispatched _ depth => (k <= depth)%nat
  | state_change _ _ _ _ => True
  end.

(** [w'] comes after [w] with the lock at the same depth, and all that
    was dispatched or executed in between was so at depth [k]. *)
Definition extends (k : nat) (w w' : World) : Prop :=
  _lock (breaker w') = _lock (breaker w) /\
  exists suffix, trace w' = trace w ++ suffix /\ Forall (under_lock k) suffix.

(** ** The lock under several callers

    [call] and [call_async] both run their dispatch inside
    [with self._lock], and [_lock] is a [threading.RLock]: it is owned by
    a thread, the owning thread may acquire it again without blocking, and
    another thread blocks until it is free.  A blocking call occupies its
    thread from entering the block to leaving it.  An awaited call runs
    on the thread of its event loop; while it is parked at an [await]
    inside the block the loop runs other coroutines on that same thread.

    Two protected calls are followed here through the block: [Enter]
    acquires the lock, [Suspend] and [Resume] park and wake a coroutine
    at an [await] inside the dispatch, [Leave] is any exit of the block
    (return, raised error, cancellation) and releases the lock.  A step
    that cannot be taken yields [None]. *)
Module Scheduling.

Definition thread := nat.

Record RLock := { owner : option thread; level : nat }.

Definition RLock_new : RLock := {| owner := None; level := 0 |}.

Definition rlock_acquire (t : thread) (l : RLock) : option RLock :=
  match owner l with
  | None => Some {| owner := Some t; level := 1 |}
  | Some o => if Nat.eqb o t
              then Some {| owner := Some o; level := S (level l) |}
              else None
  end.

Definition rlock_release (t : thread) (l : RLock) : option RLock :=
  match owner l with
  | Some o =>
      if Nat.eqb o t then
        match level l with
        | O => None
        | S O => Some RLock_new
        | S n => Some {| owner := Some o; level := n |}
        end
      else None
  | None => None
  end.

Inductive kind := Blocking | Awaited.

Inductive position :=
| Pending                          (* before the [with] block *)
| Dispatching (suspended : bool)   (* inside it, running or parked *)
| Finished.

Record task := { t_thread : thread; t_kind : kind; t_at : position }.

Definition move (p : position) (t : task) : task :=
  {| t_thread := t_thread t; t_kind := t_kind t; t_at := p |}.

Definition inside (t : task) : bool :=
  match t_at t with Dispatching _ => true | _ => false end.

(** The other call is running (not parked) on thread [t]. *)
Definition occupies (other : task) (t : thread) : bool :=
  Nat.eqb (t_thread other) t &&
  match t_at other with Dispatching false => true | _ => false end.

Inductive action := Enter | Suspend | Resume | Leave.

Definition task_step (a : action) (l : RLock) (other me : task) : option (RLock * task) :=
  match a, t_at me with
  | Enter, Pending =>
      if occupies other (t_thread me) then None
      else match rlock_acquire (t_thread me) l with
           | Some l' => Some (l', move (Dispatching false) me)
           | None => None
           end
  | Suspend, Dispatching false =>
      match t_kind me with
      | Awaited => Some (l, move (Dispatching true) me)
      | Blocking => None
      end
  | Resume, Dispatching true =>
      if occupies other (t_thread me) then None
      else Some (l, move (Dispatching false) me)
  | Leave, Dispatching false =>
      match rlock_release (t_thread me) l with
      | Some l' => Some (l', move Finished me)
      | None => None
      end
  | _, _ => None
  end.

Record config := { lock : RLock; first : task; second : task }.

Inductive who := First | Second.

Definition step (s : who * action) (c : config) : option config :=
  match fst s with
  | First =>
      match task_step (snd s) (lock c) (second c) (first c) with
      | Some (l', t') => Some {| lock := l'; first := t'; second := second c |}
      | None => None
      end
  | Second =>
      match task_step (snd s) (lock c) (first c) (second c) with
      | Some (l', t') => Some {| lock := l'; first := first c; second := t' |}
      | None => None
      end
  end.

Fixpoint run (schedule : list (who * action)) (c : config) : option config :=
  match schedule with
  | [] => Some c
  | s :: rest => match step s c with
                 | Some c' => run rest c'
                 | None => None
                 end
  end.

(** Two calls about to go through one breaker whose lock is free. *)
Definition start (t1 : thread) (k1 : kind) (t2 : thread) (k2 : kind) : config :=
  {| lock := RLock_new;
     first := {| t_thread := t1; t_kind := k1; t_at := Pending |};
     second := {| t_thread := t2; t_kind := k2; t_at := Pending |} |}.

Definition both_inside (c : config) : bool := inside (first c) && inside (second c).

(** What the lock looks like for two callers on the threads [t1] and
    [t2]: free when neither is inside the block, owned once by the one
    that is inside; and both are never inside. *)
Definition exclusive (t1 t2 : thread) (c : config) : Prop :=
  t_thread (first c) = t1 /\ t_thread (second c) = t2 /\
  match inside (first c), inside (second c) with
  | false, false => lock c = RLock_new
  | true, false => lock c = {| owner := Some t1; level := 1 |}
  | false, true => lock c = {| owner := Some t2; level := 1 |}
  | true, true => False
  end.

End Scheduling.

(** ** Sample data *)

Definition OSError_type : pytype :=
  {| ty_name := "OSError"; ty_bases := mro Exception_type |}.

Definition ConnectionError_type : pytype :=
  {| ty_name := "ConnectionError"; ty_bases := mro OSError_type |}.

Definition refused : exception := Exc ConnectionError_type "refused".

Definition failing : callable := PyFunction "fetch" false (fun _ => Raises refused) 5.

Definition working : callable := PyFunction "fetch" false (fun _ => Returns (VInt 200)) 5.

(** The same two as coroutine functions. *)
Definition failing_async : callable := PyFunction "fetch" true (fun _ => Raises refused) 5.

Definition working_async : callable :=
  PyFunction "fetch" true (fun _ => Returns (VInt 200)) 5.

(** A breaker with threshold 3, built at time 0 ... *)
Definition fresh3 : World := set_fail_max 3 (__init__ no_args 1%nat 0).

(** ... and the same after three failures in a row. *)
Definition tripped : World :=
  call_each [(failing, []); (failing, []); (failing, [])] fresh3.

(** A breaker with threshold 2 after one failure. *)
Definition once_failed : World :=
  call_each [(failing, [])] (set_fail_max 2 (__init__ no_args 1%nat 0)).

(** A breaker that excludes [OSError], opened by hand at time 0 and left
    alone for its timeout of 60 seconds. *)
Definition lenient_expired : World :=
  advance (timedelta_seconds 60)
    (open (__init__ {| arg_fail_max := None; arg_timeout_duration := None;
                       arg_exclude := Some [OSError_type]; arg_listeners := Some [7%nat];
                       arg_state_storage := None; arg_name := None |} 1%nat 0)).


(** ** The rest of the controller *)

(** The name a function object goes by; [functools.wraps] gives the
    decorator's closures the name of the function they wrap. *)
Fixpoint callable_name (f : callable) : string :=
  match f with
  | PyFunction name _ _ _ => name
  | InnerWrapper _ func => callable_name func
  end.

(** [_is_decorated_function]: membership in the set
    [_decorated_functions], whose members are told apart by name here. *)
Definition _is_decorated_function (b : CircuitBreaker) (func : callable) : bool :=
  existsb (String.eqb (callable_name func)) (_decorated_functions b).

(** [n] layers of the decorator, each with the marking [ignore], around
    a function. *)
Fixpoint decorate (n : nat) (ignore : bool) (func : callable) : callable :=
  match n with
  | O => func
  | S m => _outer_wrapper ignore (decorate m ignore func)
  end.

(** What can happen to a breaker: the operations of its public
    interface, the passing of time, and a write to its storage by
    another actor that shares it.  A removal that raises [ValueError]
    leaves the world as it was. *)
Inductive operation :=
| Call (func : callable) (args : list pyvalue)
| CallAsync (func : callable) (args : list pyvalue)
| Open
| HalfOpen
| Close
| ReadState
| SetFailMax (number : Z)
| SetTimeoutDuration (timeout : timedelta)
| SetName (n : option string)
| AddExcludedException (E : pytype)
| AddExcludedExceptions (Es : list pytype)
| RemoveExcludedException (E : pytype)
| AddListener (l : listener)
| AddListeners (ls : list listener)
| RemoveListener (l : listener)
| Decorate (call_args : list pyobject) (ignore_on_call : bool)
| Elapse (d : timedelta)
| ExternalWrite (t : CircuitBreakerState).

Definition perform (op : operation) (w : World) : World :=
  match op with
  | Call func args => snd (call func args w)
  | CallAsync func args => snd (call_async func args w)
  | Open => open w
  | HalfOpen => half_open w
  | Close => close w
  | ReadState => snd (state w)
  | SetFailMax number => set_fail_max number w
  | SetTimeoutDuration timeout => set_timeout_duration timeout w
  | SetName n => set_name n w
  | AddExcludedException E => add_excluded_exception E w
  | AddExcludedExceptions Es => add_excluded_exceptions Es w
  | RemoveExcludedException E => or_default (remove_excluded_exception E w) w
  | AddListener l => add_listener l w
  | AddListeners ls => add_listeners ls w
  | RemoveListener l => or_default (remove_listener l w) w
  | Decorate call_args ignore_on_call => snd (__call__ call_args ignore_on_call w)
  | Elapse d => advance d w
  | ExternalWrite t => external_set_state t w
  end.

Definition perform_all (ops : list operation) (w : World) : World :=
  fold_left (fun w0 op => perform op w0) ops w.

Definition is_external_write (op : operation) : bool :=
  match op with ExternalWrite _ => true | _ => false end.

(** The cached state object and the storage agree on the tag. *)
Definition in_sync (w : World) : Prop :=
  current_state (breaker w) = so_state (_state (breaker w)).

(** The breaker [id] between two operations: its lock is free, nothing
    is registered as decorated, and its cached state object is bound to
    it and has an identity that the allocator has handed out. *)
Definition at_rest (id : nat) (w : World) : Prop :=
  self_id (breaker w) = id /\
  _lock (breaker w) = 0%nat /\
  _decorated_functions (breaker w) = [] /\
  so_breaker (_state (breaker w)) = id /\
  (so_id (_state (breaker w)) < next_obj w)%nat.

(** [w'] comes after [w] with the same identity, lock depth and set of
    decorated functions, an allocator that has not gone back, and a
    cached state object that is still bound and allocated if it was. *)
Definition settles (w w' : World) : Prop :=
  self_id (breaker w') = self_id (breaker w) /\
  _lock (breaker w') = _lock (breaker w) /\
  _decorated_functions (breaker w') = _decorated_functions (breaker w) /\
  (next_obj w <= next_obj w')%nat /\
  (so_breaker (_state (breaker w)) = self_id (breaker w) ->
   so_breaker (_state (breaker w')) = self_id (breaker w')) /\
  (so_id (_state (breaker w)) < next_obj w ->
   so_id (_state (breaker w')) < next_obj w')%nat.

(** [w'] comes after [w] with the same configuration: threshold,
    timeout, exclusions, listeners and name. *)
Definition configured_alike (w w' : World) : Prop :=
  same_config (breaker w') (breaker w).

(** [w'] is in sync if [w] was. *)
Definition stays_in_sync (w w' : World) : Prop := in_sync w -> in_sync w'.

(** The number of entries of a list that [eqb] equates with [x]. *)
Definition occurrences {A : Type} (eqb : A -> A -> bool) (x : A) (l : list A) : nat :=
  List.length (filter (fun y => eqb y x) l).

(** * Properties *)

(** ** Basic facts *)

Lemma tag_eqb_eq a b : tag_eqb a b = true <-> a = b.
Proof. destruct a, b; simpl; split; intro H; congruence. Qed.

Lemma tag_eqb_refl a : tag_eqb a a = true.
Proof. now destruct a. Qed.

Lemma tag_eqb_neq a b : a <> b -> tag_eqb a b = false.
Proof. destruct a, b; simpl; congruence. Qed.

Lemma same_config_refl b : same_config b b.
Proof. repeat split. Qed.

Lemma same_config_trans b1 b2 b3 :
  same_config b1 b2 -> same_config b2 b3 -> same_config b1 b3.
Proof.
  unfold same_config; intros (?&?&?&?&?&?&?) (?&?&?&?&?&?&?).
  repeat split; congruence.
Qed.

Lemma is_system_error_config b b' e :
  same_config b b' -> is_system_error b e = is_system_error b' e.
Proof.
  intros (_&_&_&_&Hx&_). unfold is_system_error. now rewrite Hx.
Qed.

(** Building a state object without notification only allocates it:
    this is how [__init__] gets its first state. *)
Lemma create_without_notification tag prev w :
  _create_new_state tag prev false w =
  (make_state (next_obj w) (self_id (breaker w)) tag (clock w), alloc w).
Proof. reflexivity. Qed.

(** Takes a world apart down to the fields of the storage and of the
    cached state object. *)
Ltac open_world w :=
  let b := fresh "b" in
  let s := fresh "sto" in
  let st := fresh "st" in
  destruct w as [b clk tr nobj];
  destruct b as [sid lk s st fmax tmo excl lsn bname decorated];
  destruct s as [stag scnt]; destruct st as [oid owner ovar].

Ltac unfold_views :=
  unfold is_closed, is_half_open, is_open_since, same_config,
    current_state, fail_counter, fail_max, timeout_duration in *.

(** What a transition leaves behind, field by field. *)
Lemma transition_to_eq tag w :
  transition_to tag w =
  {| breaker :=
       {| self_id := self_id (breaker w);
          _lock := _lock (breaker w);
          _state_storage :=
            {| sto_state := tag;
               sto_counter := match tag with
                              | CLOSED => 0
                              | _ => fail_counter (breaker w)
                              end |};
          _state := make_state (next_obj w) (self_id (breaker w)) tag (clock w);
          _fail_max := _fail_max (breaker w);
          _timeout_duration := _timeout_duration (breaker w);
          _excluded_exception_types := _excluded_exception_types (breaker w);
          _listeners := _listeners (breaker w);
          _name := _name (breaker w);
          _decorated_functions := _decorated_functions (breaker w) |};
     clock := clock w;
     trace := trace w ++
              notifications (breaker w) (_state (breaker w))
                (make_state (next_obj w) (self_id (breaker w)) tag (clock w));
     next_obj := S (next_obj w) |}.
Proof.
  destruct w as [b c t n]; destruct b; destruct tag; reflexivity.
Qed.

(** ** Histories *)

Lemma executions_app t1 t2 : executions (t1 ++ t2) = (executions t1 + executions t2)%nat.
Proof. unfold executions. now rewrite filter_app, length_app. Qed.

Lemma dispatches_app t1 t2 : dispatches (t1 ++ t2) = (dispatches t1 + dispatches t2)%nat.
Proof. unfold dispatches. now rewrite filter_app, length_app. Qed.

Lemma executions_state_changes cb old new ls :
  executions (map (fun l => state_change l cb old new) ls) = 0%nat.
Proof. unfold executions. induction ls; simpl; auto. Qed.

Lemma dispatches_state_changes cb old new ls :
  dispatches (map (fun l => state_change l cb old new) ls) = 0%nat.
Proof. unfold dispatches. induction ls; simpl; auto. Qed.

Lemma executions_notifications b old new : executions (notifications b old new) = 0%nat.
Proof. apply executions_state_changes. Qed.

Lemma dispatches_notifications b old new : dispatches (notifications b old new) = 0%nat.
Proof. apply dispatches_state_changes. Qed.

Ltac count_events :=
  repeat (rewrite executions_app || rewrite dispatches_app ||
          rewrite executions_notifications || rewrite dispatches_notifications ||
          rewrite executions_state_changes || rewrite dispatches_state_changes);
  unfold executions, dispatches; simpl; lia.

(** ** Values handed back *)

(** The handling of a call does not look at what the function returns:
    it commutes with the passage from the values of a body to what a
    call expression evaluates to. *)
Lemma closed_call_as_values fn w :
  closed_call (fun w0 => as_values (fn w0)) w = as_values (closed_call fn w).
Proof.
  unfold closed_call, as_values. destruct (fn w) as [[v|e] w1]; cbn [fst snd value_of].
  - reflexivity.
  - destruct (is_system_error (breaker w1) e); [|reflexivity].
    match goal with |- context [if ?c then _ else _] => destruct c end; reflexivity.
Qed.

Lemma half_open_call_as_values fn w :
  half_open_call (fun w0 => as_values (fn w0)) w = as_values (half_open_call fn w).
Proof.
  unfold half_open_call, as_values. destruct (fn w) as [[v|e] w1]; cbn [fst snd value_of].
  - reflexivity.
  - destruct (is_system_error (breaker w1) e); reflexivity.
Qed.

Lemma state_call_as_values st fn w :
  state_call st (fun w0 => as_values (fn w0)) w = as_values (state_call st fn w).
Proof.
  unfold state_call. destruct (so_variant st).
  - apply closed_call_as_values.
  - unfold open_call.
    destruct (clock w - opened_at <? timeout_duration (breaker w)); [reflexivity|].
    apply half_open_call_as_values.
  - apply half_open_call_as_values.
Qed.

Lemma dispatch_as_values fn w :
  dispatch (fun w0 => as_values (fn w0)) w = as_values (dispatch fn w).
Proof.
  unfold dispatch, with_lock. destruct (state (acquire w)) as [st w1].
  rewrite state_call_as_values. unfold as_values.
  destruct (state_call st fn _) as [r w2]. reflexivity.
Qed.

(** The protected call of a plain function, blocking or coroutine, is
    the dispatch of the run of its body. *)
Lemma protected_call_plain nm co body d args w :
  protected_call (PyFunction nm co body d) args w =
  as_values (dispatch (run_body nm body d args) w).
Proof.
  unfold protected_call. destruct co; cbn [iscoroutinefunction].
  - reflexivity.
  - unfold call. cbn [getattr_ignore_on_call]. apply dispatch_as_values.
Qed.

(** [await f(args)] by the kind of [f]: the code of a coroutine
    function runs; a blocking function runs too, and if it returns, the
    await of its value raises. *)
Lemma invoke_await_by_kind f args w :
  invoke_await f args w =
  if iscoroutinefunction f
  then execute f args w
  else let (r, w') := execute f args w in
       match r with
       | Returns _ => (Raises not_awaitable, w')
       | Raises e => (Raises e, w')
       end.
Proof.
  unfold invoke_await, invoke. destruct (iscoroutinefunction f); [reflexivity|].
  unfold as_values. destruct (execute f args w) as [[v|e] w']; reflexivity.
Qed.

Lemma fst_as_values p : fst (as_values p) = value_of (fst p).
Proof. reflexivity. Qed.

Lemma snd_as_values p : snd (as_values p) = snd p.
Proof. reflexivity. Qed.
(** ** Calls on a Closed breaker *)

Lemma call_failure_closed nm co body d args e w :
  is_closed w -> body args = Raises e -> is_system_error (breaker w) e = true ->
  let r := protected_call (PyFunction nm co body d) args w in
  fst r = Raises e /\
  fail_counter (breaker (snd r)) = fail_counter (breaker w) + 1 /\
  same_config (breaker (snd r)) (breaker w) /\
  (fail_counter (breaker w) + 1 < fail_max (breaker w) -> is_closed (snd r)) /\
  (fail_max (breaker w) <= fail_counter (breaker w) + 1 ->
   is_open_since (clock w + d) (snd r)).
Proof.
  intros [Ht Hv] Hb He. cbn zeta. rewrite protected_call_plain.
  open_world w. unfold_views. simpl in *. subst.
  unfold as_values, dispatch, with_lock, state, state_call, closed_call, run_body; simpl.
  rewrite Hb. unfold is_system_error in *; simpl in *. rewrite He.
  unfold fail_max, fail_counter; simpl.
  destruct (Z.leb_spec fmax (scnt + 1)); simpl;
    repeat split; try reflexivity; lia.
Qed.

Lemma call_success_closed nm co body d args v w :
  is_closed w -> body args = Returns v ->
  let r := protected_call (PyFunction nm co body d) args w in
  fst r = Returns (Value v) /\
  fail_counter (breaker (snd r)) = 0 /\
  same_config (breaker (snd r)) (breaker w) /\
  is_closed (snd r).
Proof.
  intros [Ht Hv] Hb. cbn zeta. rewrite protected_call_plain.
  open_world w. unfold_views. simpl in *. subst.
  unfold as_values, dispatch, with_lock, state, state_call, closed_call, run_body; simpl.
  rewrite Hb. simpl. repeat split; reflexivity.
Qed.

Lemma raises_system_error_config b b' c :
  same_config b b' -> raises_system_error b c -> raises_system_error b' c.
Proof.
  intros Hc. unfold raises_system_error. destruct (fst c); auto.
  intros (e & He & Hs). exists e. split; auto.
  now rewrite <- (is_system_error_config b b' e Hc).
Qed.

(** A run of failures on a Closed breaker that does not go past the
    threshold: the counter grows by one per call, and the breaker is
    Closed below the threshold and Open once the threshold is met. *)
Lemma call_each_failures cs :
  forall w,
    is_closed w ->
    Forall (raises_system_error (breaker w)) cs ->
    fail_counter (breaker w) + Z.of_nat (List.length cs) <= fail_max (breaker w) ->
    let w' := call_each cs w in
    fail_counter (breaker w') = fail_counter (breaker w) + Z.of_nat (List.length cs) /\
    same_config (breaker w') (breaker w) /\
    (fail_counter (breaker w') < fail_max (breaker w) -> is_closed w') /\
    (cs <> [] -> fail_counter (breaker w') = fail_max (breaker w) ->
     exists t0, is_open_since t0 w').
Proof.
  induction cs as [|c cs IH]; intros w Hcl Hall Hle.
  - simpl in *. split; [lia|]. split; [apply same_config_refl|].
    split; [auto|]. intros H; now elim H.
  - inversion Hall as [|? ? Hc Hrest]; subst.
    destruct c as [f args]. unfold raises_system_error in Hc; simpl in Hc.
    destruct f as [nm co body d|]; [|contradiction].
    destruct Hc as (e & Hb & He).
    destruct (call_failure_closed nm co body d args e w Hcl Hb He)
      as (_ & Hcnt & Hcfg & Hclosed & Hopen).
    cbn [call_each fst snd].
    set (w1 := snd (protected_call (PyFunction nm co body d) args w)) in *.
    assert (Hfm : fail_max (breaker w1) = fail_max (breaker w))
      by (unfold fail_max; apply Hcfg).
    cbn [List.length] in Hle. rewrite Nat2Z.inj_succ in Hle.
    destruct cs as [|c' cs'].
    + cbn [call_each List.length]. cbn zeta. rewrite Hcnt.
      split; [lia|]. split; [exact Hcfg|]. split.
      * intro Hlt. apply Hclosed. lia.
      * intros _ Heq. exists (clock w + d). apply Hopen. lia.
    + assert (Hcl1 : is_closed w1) by (apply Hclosed; cbn [List.length] in Hle; lia).
      assert (Hall1 : Forall (raises_system_error (breaker w1)) (c' :: cs')).
      { eapply Forall_impl; [|exact Hrest]. intros a.
        apply raises_system_error_config.
        destruct Hcfg as (?&?&?&?&?&?&?); repeat split; congruence. }
      destruct (IH w1 Hcl1 Hall1) as (Hc2 & Hcfg2 & Hclosed2 & Hopen2).
      { rewrite Hfm, Hcnt. lia. }
      cbn zeta. split; [|split; [|split]].
      * rewrite Hc2, Hcnt. cbn [List.length]. rewrite !Nat2Z.inj_succ. lia.
      * eapply same_config_trans; eauto.
      * rewrite <- Hfm. apply Hclosed2.
      * intros _. rewrite <- Hfm. apply Hopen2. discriminate.
Qed.

(** C1 (threshold trip), as the code has it.  A Closed breaker with
    threshold [N >= 1] whose failure counter is 0 receives [N] protected
    calls in a row that each raise a non-excluded error: after the
    first [k] of them the counter is [k], the breaker is Closed while
    [k < N] and is Open exactly when [k = N]; and after [N-1] of them one
    successful call puts the counter back to 0 and leaves the breaker
    Closed. *)
Theorem threshold_trip (w : World) (N : Z) (cs : list invocation) (ok : invocation) :
  is_closed w ->
  fail_counter (breaker w) = 0 ->
  fail_max (breaker w) = N -> 1 <= N ->
  Z.of_nat (List.length cs) = N ->
  Forall (raises_system_error (breaker w)) cs ->
  succeeds ok ->
  (forall k : nat, (k <= List.length cs)%nat ->
     let wk := call_each (firstn k cs) w in
     fail_counter (breaker wk) = Z.of_nat k /\
     (Z.of_nat k < N -> is_closed wk) /\
     (Z.of_nat k = N -> exists t0, is_open_since t0 wk) /\
     (current_state (breaker wk) = OPEN <-> Z.of_nat k = N)) /\
  (let w' := snd (protected_call (fst ok) (snd ok)
                    (call_each (firstn (List.length cs - 1) cs) w)) in
   fail_counter (breaker w') = 0 /\ is_closed w').
Proof.
  intros Hcl H0 HN H1 Hlen Hall Hok.
  assert (Hrun : forall k : nat, (k <= List.length cs)%nat ->
     let wk := call_each (firstn k cs) w in
     fail_counter (breaker wk) = Z.of_nat k /\
     same_config (breaker wk) (breaker w) /\
     (Z.of_nat k < N -> is_closed wk) /\
     (Z.of_nat k = N -> exists t0, is_open_since t0 wk)).
  { intros k Hk wk.
    assert (Hfl : List.length (firstn k cs) = k) by (apply firstn_length_le; exact Hk).
    destruct (call_each_failures (firstn k cs) w Hcl) as (Hc & Hcfg & Hclosed & Hopen).
    - rewrite <- (firstn_skipn k cs) in Hall.
      apply Forall_app in Hall. apply Hall.
    - rewrite Hfl. lia.
    - rewrite Hfl, H0 in Hc. fold wk in Hc, Hcfg, Hclosed, Hopen.
      split; [lia|]. split; [exact Hcfg|]. split.
      + intro. apply Hclosed. lia.
      + intro Hk'. apply Hopen; [|lia].
        destruct cs; simpl in *; [lia|]. destruct k; simpl; [lia|discriminate]. }
  split.
  - intros k Hk wk. destruct (Hrun k Hk) as (Hc & _ & Hclosed & Hopen).
    fold wk in Hc, Hclosed, Hopen.
    split; [exact Hc|]. split; [exact Hclosed|]. split; [exact Hopen|]. split.
    + intro Ho. destruct (Z.eq_dec (Z.of_nat k) N) as [|Hne]; auto.
      assert (Hlt : Z.of_nat k < N) by lia.
      destruct (Hclosed Hlt) as [Ht _]. congruence.
    + intro Hk'. destruct (Hopen Hk') as (t0 & Ht & _). exact Ht.
  - destruct (Hrun (List.length cs - 1)%nat) as (Hc & Hcfg & Hclosed & _); [lia|].
    set (wk := call_each (firstn (List.length cs - 1) cs) w) in *.
    assert (Hcl' : is_closed wk) by (apply Hclosed; lia).
    destruct ok as [f args]. unfold succeeds in Hok. simpl in Hok.
    destruct f as [nm co body d|]; [|contradiction].
    destruct Hok as (v & Hv).
    destruct (call_success_closed nm co body d args v wk Hcl' Hv) as (_ & Hz & _ & Hfin).
    simpl. split; assumption.
Qed.

Lemma threshold_trip_witness :
  let w := fresh3 in
  let cs := [(failing, []); (failing, []); (failing, [])] in
  (forall k : nat, (k <= 3)%nat ->
     let wk := call_each (firstn k cs) w in
     fail_counter (breaker wk) = Z.of_nat k /\
     (Z.of_nat k < 3 -> is_closed wk) /\
     (Z.of_nat k = 3 -> exists t0, is_open_since t0 wk) /\
     (current_state (breaker wk) = OPEN <-> Z.of_nat k = 3)) /\
  (let w' := snd (protected_call working [] (call_each (firstn 2 cs) w)) in
   fail_counter (breaker w') = 0 /\ is_closed w').
Proof.
  intros w cs.
  apply (threshold_trip w 3 cs (working, [])).
  - split; reflexivity.
  - reflexivity.
  - reflexivity.
  - lia.
  - reflexivity.
  - repeat constructor; eexists; split; reflexivity.
  - exists (VInt 200). reflexivity.
Defined.


(** C1 as worded does not hold of every Closed breaker: the counter
    counts the failures that came before the run too.  With threshold 2
    and one earlier failure the breaker is Closed, and after [N-1 = 1]
    more failure it is already Open, so that the successful call that
    follows is turned away and resets nothing. *)
Lemma threshold_trip_counts_earlier_failures :
  is_closed once_failed /\
  fail_max (breaker once_failed) = 2 /\
  fail_counter (breaker once_failed) = 1 /\
  raises_system_error (breaker once_failed) (failing, []) /\
  succeeds (working, []) /\
  current_state (breaker (call_each [(failing, [])] once_failed)) = OPEN /\
  let w' := snd (protected_call working [] (call_each [(failing, [])] once_failed)) in
  current_state (breaker w') = OPEN /\
  fail_counter (breaker w') = 2 /\
  ~ (fail_counter (breaker w') = 0 /\ is_closed w').
Proof.
  split; [split; reflexivity|]. split; [reflexivity|]. split; [reflexivity|].
  split; [exists refused; split; reflexivity|].
  split; [exists (VInt 200); reflexivity|]. split; [reflexivity|].
  cbn zeta. split; [reflexivity|]. split; [reflexivity|].
  intros [H _]. vm_compute in H. discriminate.
Qed.
(** ** Calls on an Open breaker *)

Lemma protected_invocation_plain nm co body d args :
  protected_invocation (PyFunction nm co body d) args =
  fun w => as_values (run_body nm body d args w).
Proof. destruct co; reflexivity. Qed.

(** C2 (timeout gating).  On an Open breaker entered at [t0], a
    protected call made before the timeout has elapsed does not run the
    function: it fails with the breaker's own error, whose class is not
    that of any error of the function, carrying the time that remains
    until [t0 + timeout], and it changes nothing but the history.  A call
    made when the timeout has elapsed first transitions to Half-Open,
    notifying every listener of the change from the cached Open state,
    and then applies the Half-Open logic to this same invocation, which
    runs the function exactly once.  This holds of the blocking call of
    a blocking function and of the awaited call of a coroutine
    function. *)
Theorem timeout_gating (w : World) (t0 : datetime)
    (nm : string) (co : bool) (body : list pyvalue -> outcome) (d : timedelta)
    (args : list pyvalue) :
  is_open_since t0 w ->
  let f := PyFunction nm co body d in
  let elapsed := clock w - t0 in
  let timeout := timeout_duration (breaker w) in
  (elapsed < timeout ->
     exists msg,
       fst (protected_call f args w) = Raises (CircuitBreakerError msg (timeout - elapsed)) /\
       type_of (CircuitBreakerError msg (timeout - elapsed)) = CircuitBreakerError_type /\
       0 < timeout - elapsed /\
       clock w + (timeout - elapsed) = t0 + timeout /\
       snd (protected_call f args w) = emit [dispatched OPEN (S (_lock (breaker w)))] w /\
       executions (trace (snd (protected_call f args w))) = executions (trace w)) /\
  (timeout <= elapsed ->
     let w0 := emit [dispatched OPEN (S (_lock (breaker w)))] (acquire w) in
     let wh := half_open w0 in
     is_half_open wh /\
     trace wh = trace w ++ dispatched OPEN (S (_lock (breaker w))) ::
                  notifications (breaker w) (_state (breaker w)) (_state (breaker wh)) /\
     protected_call f args w =
       (let (r, w') := half_open_call (protected_invocation f args) wh in (r, release w')) /\
     executions (trace (snd (protected_call f args w))) = S (executions (trace w))).
Proof.
  intros [Ht Hv] f elapsed timeout. subst f elapsed timeout.
  rewrite protected_invocation_plain, protected_call_plain.
  open_world w. unfold_views. simpl in *. subst. split.
  - intro Hlt. eexists.
    unfold as_values, dispatch, with_lock, state, state_call, open_call; simpl.
    unfold timeout_duration; simpl.
    apply Z.ltb_lt in Hlt. rewrite Hlt. simpl.
    apply Z.ltb_lt in Hlt.
    repeat split; try reflexivity; try lia.
    count_events.
  - intro Hge. cbn zeta. rewrite half_open_call_as_values.
    unfold as_values, dispatch, with_lock, state, state_call, open_call; simpl.
    unfold timeout_duration; simpl.
    apply Z.ltb_ge in Hge. rewrite Hge.
    unfold half_open. rewrite !transition_to_eq. simpl.
    split; [split; reflexivity|]. split.
    { unfold notifications; simpl. now rewrite <- app_assoc. }
    unfold half_open_call, run_body; simpl.
    destruct (body args) as [v|e]; simpl.
    + split; [reflexivity|]. count_events.
    + destruct (is_system_error _ e); simpl; (split; [reflexivity|]); count_events.
Qed.

Lemma timeout_gating_witness :
  (exists msg,
     fst (protected_call working [] tripped) = Raises (CircuitBreakerError msg 60000000) /\
     executions (trace (snd (protected_call working [] tripped)))
       = executions (trace tripped)) /\
  (let late := advance (timedelta_seconds 60) tripped in
   executions (trace (snd (protected_call working_async [] late)))
     = S (executions (trace late))).
Proof.
  split.
  - destruct (timeout_gating tripped 15 "fetch" false (fun _ => Returns (VInt 200)) 5 [])
      as [Hearly _]; [split; reflexivity|].
    destruct Hearly as (msg & Hr & _ & _ & _ & _ & Hx); [reflexivity|].
    exists msg. split; [exact Hr|exact Hx].
  - intro late.
    destruct (timeout_gating late 15 "fetch" true (fun _ => Returns (VInt 200)) 5 [])
      as [_ Hlate]; [split; reflexivity|].
    destruct Hlate as (_ & _ & _ & Hx); [unfold late; vm_compute; discriminate|].
    exact Hx.
Defined.
(** ** Calls on a Half-Open breaker *)

(** C3 (Half-Open resolution).  On a Half-Open breaker a protected call
    (the blocking call of a blocking function, the awaited call of a
    coroutine function) runs the function exactly once.  If the function
    returns, the value is handed back, the breaker is Closed and the
    counter is 0.  If it raises a non-excluded error, the error is
    re-raised and the breaker is Open with, as entry timestamp, the clock
    at the moment the function failed. *)
Theorem half_open_resolution (w : World)
    (nm : string) (co : bool) (body : list pyvalue -> outcome) (d : timedelta)
    (args : list pyvalue) :
  is_half_open w ->
  let r := protected_call (PyFunction nm co body d) args w in
  executions (trace (snd r)) = S (executions (trace w)) /\
  clock (snd r) = clock w + d /\
  (forall v, body args = Returns v ->
     fst r = Returns (Value v) /\ is_closed (snd r) /\
     fail_counter (breaker (snd r)) = 0) /\
  (forall e, body args = Raises e -> is_system_error (breaker w) e = true ->
     fst r = Raises e /\ is_open_since (clock w + d) (snd r)).
Proof.
  intros [Ht Hv]. cbn zeta. rewrite protected_call_plain.
  open_world w. unfold_views. simpl in *. subst.
  unfold as_values, dispatch, with_lock, state, state_call, half_open_call, run_body; simpl.
  unfold is_system_error; simpl.
  destruct (body args) as [v|e]; simpl.
  - split; [count_events|]. split; [reflexivity|]. split.
    + intros v' Hv'. inversion Hv'; subst. repeat split.
    + intros e He. discriminate.
  - destruct (issubclass_tuple (type_of e) excl) eqn:He; simpl.
    + split; [count_events|]. split; [reflexivity|]. split.
      * intros v Hv'. discriminate.
      * intros e' He' Hs. inversion He'; subst. rewrite He in Hs. discriminate.
    + split; [count_events|]. split; [reflexivity|]. split.
      * intros v Hv'. discriminate.
      * intros e' He' Hs. inversion He'; subst. repeat split.
Qed.

Lemma half_open_resolution_witness :
  let w := half_open tripped in
  is_closed (snd (protected_call working [] w)) /\
  fail_counter (breaker (snd (protected_call working [] w))) = 0 /\
  is_open_since 20 (snd (protected_call failing_async [] w)).
Proof.
  intro w.
  destruct (half_open_resolution w "fetch" false (fun _ => Returns (VInt 200)) 5 [])
    as (_ & _ & Hok & _); [split; reflexivity|].
  destruct (half_open_resolution w "fetch" true (fun _ => Raises refused) 5 [])
    as (_ & _ & _ & Hko); [split; reflexivity|].
  destruct (Hok (VInt 200) eq_refl) as (_ & Hc & Hz).
  destruct (Hko refused eq_refl eq_refl) as (_ & Ho).
  split; [exact Hc|]. split; [exact Hz|exact Ho].
Defined.

(** ** Excluded errors *)




(** Nor of the Open breaker whose timeout has elapsed: its tag is OPEN
    before the call and CLOSED after it. *)
Lemma exclusion_after_timeout_changes_tag :
  is_open_since 0 lenient_expired /\
  timeout_duration (breaker lenient_expired) <= clock lenient_expired - 0 /\
  is_system_error (breaker lenient_expired) refused = false /\
  fst (protected_call failing [] lenient_expired) = Raises refused /\
  current_state (breaker (snd (protected_call failing [] lenient_expired))) = CLOSED /\
  current_state (breaker (snd (protected_call failing [] lenient_expired)))
    <> current_state (breaker lenient_expired).
Proof.
  split; [split; reflexivity|]. split; [vm_compute; discriminate|].
  split; [reflexivity|]. split; [reflexivity|]. split; [reflexivity|].
  vm_compute. discriminate.
Qed.


(** ** Manual transitions and drift *)

(** C5 (manual override).  Whatever the state, the counter and the clock,
    [open], [half_open] and [close] ([manual] of the tag) go through: the
    storage holds the new tag, the cached state object is replaced by a
    fresh one of that tag bound to this breaker, every listener is
    notified once with the previous cached state and the new one, the
    counter is kept (and reset on closing), the configuration and the
    lock are as before, and the next call of a function is handled by
    the rules of the new state. *)
Theorem manual_override (w : World) (tag : CircuitBreakerState)
    (nm : string) (co : bool) (body : list pyvalue -> outcome) (d : timedelta)
    (args : list pyvalue) :
  let w' := manual tag w in
  let new := make_state (next_obj w) (self_id (breaker w)) tag (clock w) in
  current_state (breaker w') = tag /\
  _state (breaker w') = new /\
  so_id new = next_obj w /\ so_state new = tag /\
  so_breaker new = self_id (breaker w) /\
  trace w' = trace w ++ notifications (breaker w) (_state (breaker w)) new /\
  fail_counter (breaker w') =
    match tag with CLOSED => 0 | _ => fail_counter (breaker w) end /\
  same_config (breaker w') (breaker w) /\
  clock w' = clock w /\
  call (PyFunction nm co body d) args w' =
    with_lock (fun w0 =>
      match tag with
      | CLOSED => closed_call
      | OPEN => open_call (clock w)
      | HALF_OPEN => half_open_call
      end (invoke (PyFunction nm co body d) args)
          (emit [dispatched tag (_lock (breaker w0))] w0)) w'.
Proof.
  intros w' new. subst w' new.
  assert (Hm : manual tag w = transition_to tag w) by (destruct tag; reflexivity).
  rewrite Hm, transition_to_eq. unfold current_state, same_config. simpl.
  repeat split; destruct tag; reflexivity.
Qed.

(** C6 (drift detection).  When the tag in the storage differs from the
    tag of the cached state object, reading [state] returns and caches a
    fresh state object of the storage's tag bound to this breaker, and
    adds to the history exactly one notification per registered
    listener, from the old cached state to the new one.  When the tags
    agree, reading [state] returns the cached object and changes
    nothing. *)
Theorem drift_detection (w : World) :
  (current_state (breaker w) <> so_state (_state (breaker w)) ->
     let tag := current_state (breaker w) in
     let new := make_state (next_obj w) (self_id (breaker w)) tag (clock w) in
     fst (state w) = new /\
     _state (breaker (snd (state w))) = new /\
     so_id new = next_obj w /\ so_state new = tag /\
     so_breaker new = self_id (breaker w) /\
     current_state (breaker (snd (state w))) = tag /\
     trace (snd (state w)) =
       trace w ++ notifications (breaker w) (_state (breaker w)) new /\
     next_obj (snd (state w)) = S (next_obj w)) /\
  (current_state (breaker w) = so_state (_state (breaker w)) ->
     state w = (_state (breaker w), w)).
Proof.
  split.
  - intros Hne. cbn zeta. unfold state.
    rewrite (tag_eqb_neq _ _ Hne). simpl.
    open_world w. unfold current_state in *. simpl in *.
    destruct stag; repeat split.
  - intros Heq. unfold state. rewrite Heq, tag_eqb_refl. reflexivity.
Qed.

Lemma drift_detection_witness :
  let w := external_set_state HALF_OPEN lenient_expired in
  so_state (fst (state w)) = HALF_OPEN /\
  trace (snd (state w)) =
    trace w ++ [state_change 7%nat 1%nat (Some (_state (breaker w))) (fst (state w))] /\
  state fresh3 = (_state (breaker fresh3), fresh3).
Proof.
  intro w. destruct (drift_detection w) as (Hd & _).
  destruct Hd as (Hn & _ & _ & _ & _ & _ & Ht & _); [vm_compute; discriminate|].
  destruct (drift_detection fresh3) as (_ & Hs).
  split; [rewrite Hn; reflexivity|]. split; [rewrite Ht, Hn; reflexivity|].
  apply Hs. reflexivity.
Defined.

(** ** Every call of a plain function *)

Lemma follows_refl w : follows 0 0 w w.
Proof. unfold follows. split; [apply same_config_refl|lia]. Qed.

Lemma follows_trans a b c d w1 w2 w3 :
  follows a b w1 w2 -> follows c d w2 w3 -> follows (a + c) (b + d) w1 w3.
Proof.
  intros (H1 & H2 & H3) (H4 & H5 & H6). split; [|lia].
  eapply same_config_trans; eauto.
Qed.

Lemma follows_transition tag w : follows 0 0 w (transition_to tag w).
Proof.
  rewrite transition_to_eq. unfold follows, same_config. simpl.
  split; [repeat split|]. split; count_events.
Qed.

Lemma follows_set_state tag w : follows 0 0 w (set_state tag w).
Proof.
  destruct w as [b c t n]; destruct b.
  unfold follows, same_config, set_state, with_lock.
  destruct tag; simpl; (split; [repeat split|split; count_events]).
Qed.

Lemma follows_state w : follows 0 0 w (snd (state w)).
Proof.
  unfold state.
  destruct (negb (tag_eqb (current_state (breaker w)) (so_state (_state (breaker w))))).
  - apply follows_set_state.
  - apply follows_refl.
Qed.

Lemma follows_reset w : follows 0 0 w (storage_reset_counter w).
Proof. unfold follows, same_config. simpl. split; [repeat split|]. lia. Qed.

Lemma follows_inc w : follows 0 0 w (_inc_counter w).
Proof. unfold follows, same_config. simpl. split; [repeat split|]. lia. Qed.

Lemma follows_run_body nm body d args w :
  follows 0 1 w (snd (run_body nm body d args w)).
Proof.
  unfold follows, same_config, run_body. simpl.
  split; [repeat split|]. split; count_events.
Qed.

Lemma follows_closed_call {A : Type} (fn : World -> completion A * World) w nd ne :
  follows nd ne w (snd (fn w)) -> follows nd ne w (snd (closed_call fn w)).
Proof.
  unfold closed_call. destruct (fn w) as [r w1]. cbn [snd]. intro H.
  replace nd with (nd + 0)%nat by lia. replace ne with (ne + 0)%nat by lia.
  destruct r as [v|e]; cbn [snd].
  - eapply follows_trans; [exact H|apply follows_reset].
  - destruct (is_system_error (breaker w1) e); cbn [snd].
    + match goal with |- context [if ?c then _ else _] => destruct c end; cbn [snd].
      * eapply follows_trans; [exact H|].
        change 0%nat with (0 + 0)%nat.
        eapply follows_trans; [apply follows_inc|apply follows_transition].
      * eapply follows_trans; [exact H|apply follows_inc].
    + eapply follows_trans; [exact H|apply follows_refl].
Qed.

Lemma follows_half_open_call {A : Type} (fn : World -> completion A * World) w nd ne :
  follows nd ne w (snd (fn w)) -> follows nd ne w (snd (half_open_call fn w)).
Proof.
  unfold half_open_call. destruct (fn w) as [r w1]. cbn [snd]. intro H.
  replace nd with (nd + 0)%nat by lia. replace ne with (ne + 0)%nat by lia.
  destruct r as [v|e]; cbn [snd].
  - eapply follows_trans; [exact H|].
    change 0%nat with (0 + 0)%nat.
    eapply follows_trans; [apply follows_reset|apply follows_transition].
  - destruct (is_system_error (breaker w1) e); cbn [snd].
    + eapply follows_trans; [exact H|apply follows_transition].
    + eapply follows_trans; [exact H|].
      change 0%nat with (0 + 0)%nat.
      eapply follows_trans; [apply follows_reset|apply follows_transition].
Qed.

Lemma follows_state_call {A : Type} st (fn : World -> completion A * World) w ne :
  (forall w0, follows 0 ne w0 (snd (fn w0))) ->
  follows 0 ne w (snd (state_call st fn w)).
Proof.
  intro Hfn. unfold state_call. destruct (so_variant st).
  - apply follows_closed_call, Hfn.
  - unfold open_call.
    destruct (clock w - opened_at <? timeout_duration (breaker w)); cbn [snd].
    + unfold follows. split; [apply same_config_refl|lia].
    + change 0%nat with (0 + 0)%nat. change ne with (0 + ne)%nat.
      eapply follows_trans; [apply (follows_transition HALF_OPEN)|].
      apply follows_half_open_call, Hfn.
  - apply follows_half_open_call, Hfn.
Qed.

(** A dispatch of the body of a plain function goes through a state
    object once, runs the body at most once, and leaves the configuration
    and the depth of the lock as they were. *)
Lemma dispatch_plain_frame nm body d args w :
  follows 1 1 w (snd (dispatch (run_body nm body d args) w)).
Proof.
  unfold dispatch, with_lock.
  destruct (state (acquire w)) as [st w1] eqn:Hst.
  assert (H1 : follows 0 0 (acquire w) w1).
  { pose proof (follows_state (acquire w)) as H. now rewrite Hst in H. }
  set (w2 := emit [dispatched (so_state st) (_lock (breaker w1))] w1).
  assert (H2 : follows 1 0 (acquire w) w2).
  { destruct H1 as (Hc & Hd & He). unfold follows, w2.
    split; [exact Hc|]. cbn [trace emit].
    rewrite dispatches_app, executions_app. unfold dispatches at 2, executions at 2.
    cbn [filter is_dispatched is_executed List.length]. lia. }
  assert (H3 : follows 0 1 w2 (snd (state_call st (run_body nm body d args) w2))).
  { apply follows_state_call. intro w0. apply follows_run_body. }
  pose proof (follows_trans _ _ _ _ _ _ _ H2 H3) as H23.
  destruct (state_call st (run_body nm body d args) w2) as [r w3].
  cbn [snd] in *. destruct H23 as (Hc & Hd & He).
  split; [|split; [exact Hd|exact He]].
  unfold same_config in *. cbn [breaker release acquire on_breaker] in *.
  destruct Hc as (?&Hl&?&?&?&?&?).
  cbn in *. rewrite Hl. repeat split; assumption.
Qed.

(** So does the protected call of a plain function, of either kind. *)
Lemma call_plain_frame nm co body d args w :
  follows 1 1 w (snd (protected_call (PyFunction nm co body d) args w)).
Proof. rewrite protected_call_plain. apply dispatch_plain_frame. Qed.
(** ** The decorator *)

(** Running a closure of the decorator is running the function when it
    is marked, and dispatching its run when it is not. *)
Lemma execute_wrapper ign func args w :
  execute (InnerWrapper ign func) args w =
  if getattr_ignore_on_call func then execute func args w else dispatch (execute func args) w.
Proof. reflexivity. Qed.

(** C7 (accounting once).  Let [once] be the one dispatch of the body
    of a function: the lock taken, the state read, the body handed to
    the state object, the lock released.  That is what [call] does on a
    blocking function and an awaited [call_async] on a coroutine
    function, and on a Closed breaker a failure that counts adds one to
    the failure counter.  With the default marking, the wrapper of a
    blocking function does exactly [once] when it is called and when it
    is handed to [call]; handed to [call_async] it does [once] to the
    breaker too, and then the value it returned is found not awaitable.
    The wrapper of a coroutine function does exactly [once] when it is
    awaited and when it is handed to an awaited [call_async]; called
    without [await], or handed to [call], it only makes a coroutine
    object: nothing runs and nothing is accounted until that object is
    awaited, which does [once].  In no case is the call accounted for
    twice. *)
Theorem decorated_accounting_once
    (nm : string) (body : list pyvalue -> outcome) (d : timedelta)
    (args : list pyvalue) (w : World) :
  let blocking := PyFunction nm false body d in
  let coroutine := PyFunction nm true body d in
  let wb := _outer_wrapper default_ignore_on_call blocking in
  let wc := _outer_wrapper default_ignore_on_call coroutine in
  let once := dispatch (run_body nm body d args) w in
  (call blocking args w = as_values once /\
   call_async coroutine args w = once /\
   (forall e, is_closed w -> body args = Raises e ->
              is_system_error (breaker w) e = true ->
              fail_counter (breaker (snd once)) = fail_counter (breaker w) + 1)) /\
  (__call__ [ObjFunction blocking] default_ignore_on_call w = (ReturnsWrapped wb, w) /\
   __call__ [ObjFunction coroutine] default_ignore_on_call w = (ReturnsWrapped wc, w) /\
   getattr_ignore_on_call wb = true /\ getattr_ignore_on_call wc = true /\
   iscoroutinefunction wb = false /\ iscoroutinefunction wc = true) /\
  (invoke wb args w = as_values once /\
   call wb args w = as_values once /\
   snd (call_async wb args w) = snd once /\
   fst (call_async wb args w) =
     match fst once with
     | Returns _ => Raises not_awaitable
     | Raises e => Raises e
     end) /\
  (invoke_await wc args w = once /\
   call_async wc args w = once /\
   invoke wc args w = (Returns (CoroutineObject wc args), w) /\
   call wc args w = (Returns (CoroutineObject wc args), w) /\
   await (CoroutineObject wc args) w = once).
Proof.
  intros blocking coroutine wb wc once.
  split; [|split; [|split]].
  - split.
    + unfold call. cbn [getattr_ignore_on_call blocking].
      apply (dispatch_as_values (run_body nm body d args) w).
    + split; [reflexivity|].
      intros e Hcl Hb He.
      destruct (call_failure_closed nm true body d args e w Hcl Hb He) as (_ & Hc & _).
      exact Hc.
  - repeat split.
  - split; [reflexivity|]. split; [reflexivity|].
    assert (Hawait : call_async wb args w =
                     (match fst once with
                      | Returns _ => Raises not_awaitable
                      | Raises e => Raises e
                      end, snd once)).
    { change (call_async wb args w) with (invoke_await wb args w).
      rewrite invoke_await_by_kind.
      change (iscoroutinefunction wb) with false. cbv iota.
      change (execute wb args w) with once.
      destruct once as [[v|e] w']; reflexivity. }
    rewrite Hawait. split; reflexivity.
  - repeat split.
Qed.

Lemma decorated_accounting_once_witness :
  let wb := _outer_wrapper default_ignore_on_call failing in
  let wc := _outer_wrapper default_ignore_on_call failing_async in
  fail_counter (breaker (snd (call wb [] fresh3))) = 1 /\
  fail_counter (breaker (snd (call_async wc [] fresh3))) = 1 /\
  fail_counter (breaker (snd (call_async wb [] fresh3))) = 1 /\
  call wc [] fresh3 = (Returns (CoroutineObject wc []), fresh3).
Proof.
  intros wb wc.
  destruct (decorated_accounting_once "fetch" (fun _ => Raises refused) 5 [] fresh3)
    as ((_ & _ & Hone) & _ & (_ & Hb & Hba & _) & (_ & Hc & _ & Hcc & _)).
  assert (H1 : fail_counter (breaker (snd (dispatch
                 (run_body "fetch" (fun _ => Raises refused) 5 []) fresh3))) = 1).
  { apply (Hone refused); [split; reflexivity|reflexivity|reflexivity]. }
  split; [|split; [|split]].
  - change wb with (_outer_wrapper default_ignore_on_call
                      (PyFunction "fetch" false (fun _ => Raises refused) 5)).
    rewrite Hb. exact H1.
  - change wc with (_outer_wrapper default_ignore_on_call
                      (PyFunction "fetch" true (fun _ => Raises refused) 5)).
    rewrite Hc. exact H1.
  - change wb with (_outer_wrapper default_ignore_on_call
                      (PyFunction "fetch" false (fun _ => Raises refused) 5)).
    rewrite Hba. exact H1.
  - exact Hcc.
Defined.

(** An unmarked wrapper handed to [call] goes through the state object
    twice. *)
Example unmarked_wrapper_counted_twice :
  dispatches (trace (snd (call (_outer_wrapper false failing) [] fresh3))) = 2%nat /\
  fail_counter (breaker (snd (call (_outer_wrapper false failing) [] fresh3))) = 2.
Proof. split; reflexivity. Qed.



(** ** Construction and configuration *)

(** C8 (configuration).  A breaker built without arguments has threshold
    5, a timeout of 60 seconds, no excluded class, no listener, no name,
    counter 0, and is Closed.  Each of the threshold, timeout, exclusion
    list, listeners and name given at construction is the one the breaker
    has; afterwards the setters replace threshold, timeout and name, and
    the exclusion list and the listeners grow at the end by [add_...] and
    lose the first equal entry by [remove_...], which fails when there is
    none. *)
Theorem configuration_surface (id : nat) (now : datetime) :
  (let w := __init__ no_args id now in
   fail_max (breaker w) = 5 /\
   timeout_duration (breaker w) = timedelta_seconds 60 /\
   timedelta_seconds 60 = 60000000 /\
   excluded_exceptions (breaker w) = [] /\
   listeners (breaker w) = [] /\
   name (breaker w) = None /\
   fail_counter (breaker w) = 0 /\
   is_closed w) /\
  (forall n t ex ls nm,
     let w := __init__ {| arg_fail_max := Some n; arg_timeout_duration := Some t;
                          arg_exclude := Some ex; arg_listeners := Some ls;
                          arg_state_storage := None; arg_name := Some nm |} id now in
     fail_max (breaker w) = n /\
     timeout_duration (breaker w) = t /\
     excluded_exceptions (breaker w) = ex /\
     listeners (breaker w) = ls /\
     name (breaker w) = Some nm /\
     is_closed w) /\
  (forall w n, fail_max (breaker (set_fail_max n w)) = n) /\
  (forall w t, timeout_duration (breaker (set_timeout_duration t w)) = t) /\
  (forall w nm, name (breaker (set_name nm w)) = nm) /\
  (forall w E, excluded_exceptions (breaker (add_excluded_exception E w))
               = excluded_exceptions (breaker w) ++ [E]) /\
  (forall w Es, excluded_exceptions (breaker (add_excluded_exceptions Es w))
                = excluded_exceptions (breaker w) ++ Es) /\
  (forall w E, option_map (fun w' => excluded_exceptions (breaker w'))
                 (remove_excluded_exception E w)
               = list_remove pytype_eqb E (excluded_exceptions (breaker w))) /\
  (forall w l, listeners (breaker (add_listener l w)) = listeners (breaker w) ++ [l]) /\
  (forall w ls, listeners (breaker (add_listeners ls w)) = listeners (breaker w) ++ ls) /\
  (forall w l, option_map (fun w' => listeners (breaker w')) (remove_listener l w)
               = list_remove Nat.eqb l (listeners (breaker w))).
Proof.
  repeat split.
  - intros w Es. revert w. unfold add_excluded_exceptions.
    induction Es as [|E Es IH]; intro w; simpl.
    + now rewrite app_nil_r.
    + rewrite IH. unfold excluded_exceptions. simpl. now rewrite <- app_assoc.
  - intros w E. unfold remove_excluded_exception, excluded_exceptions.
    destruct (list_remove pytype_eqb E _); reflexivity.
  - intros w ls. revert w. unfold add_listeners.
    induction ls as [|l ls IH]; intro w; simpl.
    + now rewrite app_nil_r.
    + rewrite IH. unfold listeners. simpl. now rewrite <- app_assoc.
  - intros w l. unfold remove_listener, listeners.
    destruct (list_remove Nat.eqb l _); reflexivity.
Qed.

(** ** The lock in one caller *)

Lemma extends_refl k w : extends k w w.
Proof. split; [reflexivity|]. exists []. now rewrite app_nil_r. Qed.

Lemma extends_trans k w1 w2 w3 :
  extends k w1 w2 -> extends k w2 w3 -> extends k w1 w3.
Proof.
  intros (L1 & s1 & T1 & F1) (L2 & s2 & T2 & F2). split; [congruence|].
  exists (s1 ++ s2). split.
  - now rewrite T2, T1, app_assoc.
  - apply Forall_app. now split.
Qed.

Lemma under_lock_state_changes k cb old new ls :
  Forall (under_lock k) (map (fun l => state_change l cb old new) ls).
Proof. induction ls; simpl; constructor; simpl; auto. Qed.

Lemma extends_transition k tag w : extends k w (transition_to tag w).
Proof.
  rewrite transition_to_eq. split; [reflexivity|]. simpl.
  eexists. split; [reflexivity|]. apply under_lock_state_changes.
Qed.

Lemma extends_set_state k tag w : extends k w (set_state tag w).
Proof.
  destruct w as [b c t n]; destruct b. unfold extends, set_state, with_lock.
  destruct tag; simpl; (split; [reflexivity|]);
    (eexists; split; [reflexivity|apply under_lock_state_changes]).
Qed.

Lemma extends_state k w : extends k w (snd (state w)).
Proof.
  unfold state.
  destruct (negb (tag_eqb (current_state (breaker w)) (so_state (_state (breaker w))))).
  - apply extends_set_state.
  - apply extends_refl.
Qed.

Lemma extends_quiet k w w' :
  _lock (breaker w') = _lock (breaker w) -> trace w' = trace w -> extends k w w'.
Proof.
  intros Hl Ht. split; [exact Hl|]. exists []. now rewrite app_nil_r.
Qed.

Lemma extends_run_body nm body d args w :
  extends (_lock (breaker w)) w (snd (run_body nm body d args w)).
Proof.
  split; [reflexivity|]. simpl. eexists. split; [reflexivity|].
  constructor; simpl; auto.
Qed.

Lemma extends_closed_call {A : Type} k (fn : World -> completion A * World) w :
  extends k w (snd (fn w)) -> extends k w (snd (closed_call fn w)).
Proof.
  unfold closed_call. destruct (fn w) as [r w1]. cbn [snd]. intro H.
  destruct r as [v|e]; cbn [snd].
  - eapply extends_trans; [exact H|]. now apply extends_quiet.
  - destruct (is_system_error (breaker w1) e); cbn [snd]; [|exact H].
    match goal with |- context [if ?c then _ else _] => destruct c end; cbn [snd].
    + eapply extends_trans; [exact H|].
      eapply extends_trans; [|apply extends_transition]. now apply extends_quiet.
    + eapply extends_trans; [exact H|]. now apply extends_quiet.
Qed.

Lemma extends_half_open_call {A : Type} k (fn : World -> completion A * World) w :
  extends k w (snd (fn w)) -> extends k w (snd (half_open_call fn w)).
Proof.
  unfold half_open_call. destruct (fn w) as [r w1]. cbn [snd]. intro H.
  destruct r as [v|e]; cbn [snd].
  - eapply extends_trans; [exact H|].
    eapply extends_trans; [|apply extends_transition]. now apply extends_quiet.
  - destruct (is_system_error (breaker w1) e); cbn [snd].
    + eapply extends_trans; [exact H|apply extends_transition].
    + eapply extends_trans; [exact H|].
      eapply extends_trans; [|apply extends_transition]. now apply extends_quiet.
Qed.

Lemma extends_state_call {A : Type} k st (fn : World -> completion A * World) w :
  (forall w0, _lock (breaker w0) = k -> extends k w0 (snd (fn w0))) ->
  _lock (breaker w) = k ->
  extends k w (snd (state_call st fn w)).
Proof.
  intros Hfn Hk. unfold state_call. destruct (so_variant st).
  - apply extends_closed_call, Hfn, Hk.
  - unfold open_call.
    destruct (clock w - opened_at <? timeout_duration (breaker w)); cbn [snd].
    + apply extends_refl.
    + pose proof (extends_transition k HALF_OPEN w) as Ht.
      eapply extends_trans; [exact Ht|].
      apply extends_half_open_call, Hfn. destruct Ht as [Hl _].
      unfold half_open. congruence.
  - apply extends_half_open_call, Hfn, Hk.
Qed.

Lemma extends_dispatch_plain nm body d args w :
  let w' := snd (dispatch (run_body nm body d args) w) in
  _lock (breaker w') = _lock (breaker w) /\
  exists suffix,
    trace w' = trace w ++ suffix /\
    Forall (under_lock (S (_lock (breaker w)))) suffix.
Proof.
  unfold dispatch, with_lock.
  set (k := S (_lock (breaker w))).
  assert (Hk0 : _lock (breaker (acquire w)) = k) by reflexivity.
  pose proof (extends_state k (acquire w)) as H1.
  destruct (state (acquire w)) as [st w1]. cbn [snd] in H1.
  assert (Hk1 : _lock (breaker w1) = k) by (destruct H1; congruence).
  set (w2 := emit [dispatched (so_state st) (_lock (breaker w1))] w1).
  assert (H2 : extends k w1 w2).
  { split; [reflexivity|]. exists [dispatched (so_state st) (_lock (breaker w1))].
    split; [reflexivity|]. constructor; [exact Hk1|constructor]. }
  assert (H3 : extends k w2 (snd (state_call st (run_body nm body d args) w2))).
  { apply extends_state_call; [|exact Hk1].
    intros w0 Hw0. rewrite <- Hw0. apply extends_run_body. }
  destruct (state_call st (run_body nm body d args) w2) as [r w3]. cbn [snd] in *.
  destruct (extends_trans _ _ _ _ H1 (extends_trans _ _ _ _ H2 H3)) as (Hl & s & Ht & Hf).
  split.
  - cbn. rewrite Hl. reflexivity.
  - exists s. split; [exact Ht|exact Hf].
Qed.

Lemma under_lock_held_from k ev : under_lock k ev -> held_from k ev.
Proof. destruct ev; simpl; intros; subst; auto. Qed.

(** A protected call of a plain function of either kind, whatever its
    outcome: what is dispatched and what runs between the entry and the
    return does so with the lock held, at least one level deeper than
    before the call, and after the call the lock is back at the depth it
    had. *)
Lemma call_holds_and_releases_lock nm co body d args w :
  let w' := snd (protected_call (PyFunction nm co body d) args w) in
  _lock (breaker w') = _lock (breaker w) /\
  exists suffix,
    trace w' = trace w ++ suffix /\
    Forall (held_from (S (_lock (breaker w)))) suffix.
Proof.
  rewrite protected_call_plain, snd_as_values.
  destruct (extends_dispatch_plain nm body d args w) as (Hl & s & Ht & Hf).
  split; [exact Hl|]. exists s. split; [exact Ht|].
  eapply Forall_impl; [|exact Hf]. intros ev. apply under_lock_held_from.
Qed.

(** * More of the controller *)

(** ** What every call keeps

    A relation between worlds that is kept by the elementary steps of a
    dispatch is kept by any call, whatever the function: a plain one or
    closures of the decorator nested to any depth. *)
Section Kept.

Variable R : World -> World -> Prop.

Hypothesis R_refl : forall w, R w w.
Hypothesis R_trans : forall w1 w2 w3, R w1 w2 -> R w2 w3 -> R w1 w3.
Hypothesis R_emit : forall evs w, R w (emit evs w).
Hypothesis R_advance : forall d w, R w (advance d w).
Hypothesis R_reset : forall w, R w (storage_reset_counter w).
Hypothesis R_inc : forall w, R w (_inc_counter w).
Hypothesis R_state : forall w, R w (snd (state w)).
Hypothesis R_transition : forall tag w, R w (transition_to tag w).
Hypothesis R_locked : forall w w', R (acquire w) w' -> R w (release w').

Lemma kept_run_body nm body d args w : R w (snd (run_body nm body d args w)).
Proof. unfold run_body. cbn [snd]. eapply R_trans; [apply R_emit|apply R_advance]. Qed.

Lemma kept_closed_call {A : Type} (fn : World -> completion A * World) w :
  R w (snd (fn w)) -> R w (snd (closed_call fn w)).
Proof.
  unfold closed_call. destruct (fn w) as [r w1]. cbn [snd]. intro H.
  destruct r as [v|e]; cbn [snd].
  - eapply R_trans; [exact H|apply R_reset].
  - destruct (is_system_error (breaker w1) e); cbn [snd]; [|exact H].
    match goal with |- context [if ?c then _ else _] => destruct c end; cbn [snd].
    + eapply R_trans; [exact H|].
      eapply R_trans; [apply R_inc|apply R_transition].
    + eapply R_trans; [exact H|apply R_inc].
Qed.

Lemma kept_half_open_call {A : Type} (fn : World -> completion A * World) w :
  R w (snd (fn w)) -> R w (snd (half_open_call fn w)).
Proof.
  unfold half_open_call. destruct (fn w) as [r w1]. cbn [snd]. intro H.
  destruct r as [v|e]; cbn [snd].
  - eapply R_trans; [exact H|].
    eapply R_trans; [apply R_reset|apply R_transition].
  - destruct (is_system_error (breaker w1) e); cbn [snd].
    + eapply R_trans; [exact H|apply R_transition].
    + eapply R_trans; [exact H|].
      eapply R_trans; [apply R_reset|apply R_transition].
Qed.

Lemma kept_state_call {A : Type} st (fn : World -> completion A * World) w :
  (forall w0, R w0 (snd (fn w0))) -> R w (snd (state_call st fn w)).
Proof.
  intro Hfn. unfold state_call. destruct (so_variant st).
  - apply kept_closed_call, Hfn.
  - unfold open_call.
    destruct (clock w - opened_at <? timeout_duration (breaker w)); cbn [snd].
    + apply R_refl.
    + eapply R_trans; [apply (R_transition HALF_OPEN)|].
      apply kept_half_open_call, Hfn.
  - apply kept_half_open_call, Hfn.
Qed.

Lemma kept_dispatch {A : Type} (fn : World -> completion A * World) w :
  (forall w0, R w0 (snd (fn w0))) -> R w (snd (dispatch fn w)).
Proof.
  intro Hfn. unfold dispatch, with_lock.
  pose proof (R_state (acquire w)) as H1.
  destruct (state (acquire w)) as [st w1]. cbn [snd] in H1.
  set (w2 := emit [dispatched (so_state st) (_lock (breaker w1))] w1).
  pose proof (kept_state_call st fn w2 Hfn) as H3.
  destruct (state_call st fn w2) as [r w3]. cbn [snd] in *.
  apply R_locked.
  eapply R_trans; [exact H1|]. eapply R_trans; [apply R_emit|exact H3].
Qed.

Lemma kept_execute f : forall args w, R w (snd (execute f args w)).
Proof.
  induction f as [nm co body d|ign func IH]; intros args w.
  - apply kept_run_body.
  - rewrite execute_wrapper. destruct (getattr_ignore_on_call func).
    + apply IH.
    + apply kept_dispatch. intro w0. apply IH.
Qed.

Lemma kept_invoke f args w : R w (snd (invoke f args w)).
Proof.
  unfold invoke. destruct (iscoroutinefunction f).
  - apply R_refl.
  - rewrite snd_as_values. apply kept_execute.
Qed.

Lemma kept_invoke_await f args w : R w (snd (invoke_await f args w)).
Proof.
  rewrite invoke_await_by_kind. destruct (iscoroutinefunction f).
  - apply kept_execute.
  - pose proof (kept_execute f args w) as H.
    destruct (execute f args w) as [[v|e] w']; exact H.
Qed.

Lemma kept_call f args w : R w (snd (call f args w)).
Proof.
  unfold call. destruct (getattr_ignore_on_call f).
  - apply kept_invoke.
  - apply kept_dispatch. intro w0. apply kept_invoke.
Qed.

Lemma kept_call_async f args w : R w (snd (call_async f args w)).
Proof.
  unfold call_async. destruct (getattr_ignore_on_call f).
  - apply kept_invoke_await.
  - apply kept_dispatch. intro w0. apply kept_invoke_await.
Qed.

Lemma kept_protected_call f args w : R w (snd (protected_call f args w)).
Proof.
  unfold protected_call. destruct (iscoroutinefunction f).
  - rewrite snd_as_values. apply kept_call_async.
  - apply kept_call.
Qed.

End Kept.
(** ** Three relations that every call keeps *)

Lemma settles_refl w : settles w w.
Proof. unfold settles. repeat split; auto. Qed.

Lemma settles_trans w1 w2 w3 : settles w1 w2 -> settles w2 w3 -> settles w1 w3.
Proof.
  unfold settles. intros (A1 & A2 & A3 & A4 & A5 & A6) (B1 & B2 & B3 & B4 & B5 & B6).
  repeat split; try congruence; try lia; auto.
Qed.

Lemma settles_transition tag w : settles w (transition_to tag w).
Proof.
  rewrite transition_to_eq. unfold settles. simpl.
  repeat split; auto; intros _; lia.
Qed.

Lemma settles_state w : settles w (snd (state w)).
Proof.
  unfold state.
  destruct (negb (tag_eqb (current_state (breaker w)) (so_state (_state (breaker w))))).
  - destruct w as [b clk tr nobj]. destruct b. unfold settles, set_state, with_lock.
    destruct (current_state _); simpl; repeat split; auto; intros _; lia.
  - apply settles_refl.
Qed.

Lemma settles_locked w w' : settles (acquire w) w' -> settles w (release w').
Proof.
  unfold settles. simpl. intros (A1 & A2 & A3 & A4 & A5 & A6).
  repeat split; auto. rewrite A2. reflexivity.
Qed.

Lemma settles_quiet w w' :
  self_id (breaker w') = self_id (breaker w) ->
  _lock (breaker w') = _lock (breaker w) ->
  _decorated_functions (breaker w') = _decorated_functions (breaker w) ->
  _state (breaker w') = _state (breaker w) ->
  next_obj w' = next_obj w ->
  settles w w'.
Proof.
  intros H1 H2 H3 H4 H5. unfold settles. rewrite H1, H2, H3, H4, H5.
  repeat split; auto.
Qed.

Ltac settles_steps :=
  first [ apply settles_refl | apply settles_trans | apply settles_state
        | apply settles_transition | apply settles_locked
        | intros; now apply settles_quiet ].

Lemma settles_call f args w : settles w (snd (call f args w)).
Proof. apply kept_call; settles_steps. Qed.

Lemma settles_call_async f args w : settles w (snd (call_async f args w)).
Proof. apply kept_call_async; settles_steps. Qed.

Lemma configured_alike_trans w1 w2 w3 :
  configured_alike w1 w2 -> configured_alike w2 w3 -> configured_alike w1 w3.
Proof. unfold configured_alike. intros H1 H2. eapply same_config_trans; eauto. Qed.

Lemma configured_alike_state w : configured_alike w (snd (state w)).
Proof. apply (follows_state w). Qed.

Lemma configured_alike_locked w w' :
  configured_alike (acquire w) w' -> configured_alike w (release w').
Proof.
  unfold configured_alike, same_config. simpl. intros (A1 & A2 & A3 & A4 & A5 & A6 & A7).
  repeat split; auto. rewrite A2. reflexivity.
Qed.

Lemma in_sync_state w : in_sync (snd (state w)).
Proof.
  unfold state.
  destruct (tag_eqb (current_state (breaker w)) (so_state (_state (breaker w)))) eqn:E; simpl.
  - apply tag_eqb_eq in E. exact E.
  - destruct w as [b clk tr nobj]. destruct b as [sid lk sto st fmax tmo excl lsn bname decorated].
    destruct sto as [stag scnt]. unfold in_sync, current_state. simpl.
    destruct stag; reflexivity.
Qed.

Lemma in_sync_transition tag w : in_sync (transition_to tag w).
Proof. rewrite transition_to_eq. unfold in_sync, current_state. destruct tag; reflexivity. Qed.

Lemma stays_in_sync_trans w1 w2 w3 :
  stays_in_sync w1 w2 -> stays_in_sync w2 w3 -> stays_in_sync w1 w3.
Proof. unfold stays_in_sync. auto. Qed.

Ltac sync_steps :=
  unfold stays_in_sync; auto;
  first [ intros; apply in_sync_state | intros; apply in_sync_transition ].

Lemma stays_in_sync_call f args w : stays_in_sync w (snd (call f args w)).
Proof. apply kept_call; sync_steps. Qed.

Lemma stays_in_sync_call_async f args w : stays_in_sync w (snd (call_async f args w)).
Proof. apply kept_call_async; sync_steps. Qed.

(** A dispatch ends in sync when the function it runs keeps the sync. *)
Lemma in_sync_dispatch {A : Type} (fn : World -> completion A * World) w :
  (forall w0, stays_in_sync w0 (snd (fn w0))) -> in_sync (snd (dispatch fn w)).
Proof.
  intro Hfn. unfold dispatch, with_lock.
  pose proof (in_sync_state (acquire w)) as H1.
  destruct (state (acquire w)) as [st w1]. cbn [snd] in H1.
  set (w2 := emit [dispatched (so_state st) (_lock (breaker w1))] w1).
  assert (H3 : stays_in_sync w2 (snd (state_call st fn w2))).
  { apply kept_state_call; sync_steps. }
  destruct (state_call st fn w2) as [r w3]. cbn [snd] in *.
  apply (H3 H1).
Qed.

Lemma stays_in_sync_execute f args w : stays_in_sync w (snd (execute f args w)).
Proof. apply kept_execute; sync_steps. Qed.

Lemma stays_in_sync_invoke f args w : stays_in_sync w (snd (invoke f args w)).
Proof. apply kept_invoke; sync_steps. Qed.

Lemma stays_in_sync_invoke_await f args w :
  stays_in_sync w (snd (invoke_await f args w)).
Proof. apply kept_invoke_await; sync_steps. Qed.

(** Running a closure of the decorator goes through a dispatch, however
    deep the closures are nested, and so ends in sync. *)
Lemma in_sync_execute_wrapper f :
  forall ign args w, in_sync (snd (execute (InnerWrapper ign f) args w)).
Proof.
  induction f as [nm co body d|ign' func IH]; intros ign args w; rewrite execute_wrapper.
  - cbn [getattr_ignore_on_call]. apply in_sync_dispatch.
    intro w0. apply stays_in_sync_execute.
  - destruct (getattr_ignore_on_call (InnerWrapper ign' func)).
    + apply IH.
    + apply in_sync_dispatch. intro w0. apply stays_in_sync_execute.
Qed.

Lemma in_sync_call_async f args w : in_sync (snd (call_async f args w)).
Proof.
  unfold call_async. destruct (getattr_ignore_on_call f) eqn:E.
  - destruct f as [nm co body d|ign func]; [discriminate|].
    rewrite invoke_await_by_kind. destruct (iscoroutinefunction (InnerWrapper ign func)).
    + apply in_sync_execute_wrapper.
    + pose proof (in_sync_execute_wrapper func ign args w) as H.
      destruct (execute (InnerWrapper ign func) args w) as [[v|e] w']; exact H.
  - apply in_sync_dispatch. intro w0. apply stays_in_sync_invoke_await.
Qed.

(** A marked closure of a coroutine function handed to [call] is only
    made into a coroutine object; every other function is run. *)
Lemma call_marked_coroutine f args w :
  getattr_ignore_on_call f && iscoroutinefunction f = true ->
  call f args w = (Returns (CoroutineObject f args), w).
Proof.
  intro H. apply andb_true_iff in H. destruct H as [Hm Hc].
  unfold call, invoke. now rewrite Hm, Hc.
Qed.

Lemma in_sync_call f args w :
  getattr_ignore_on_call f && iscoroutinefunction f = false ->
  in_sync (snd (call f args w)).
Proof.
  intro H. unfold call. destruct (getattr_ignore_on_call f) eqn:E.
  - cbn [andb] in H. unfold invoke. rewrite H, snd_as_values.
    destruct f as [nm co body d|ign func]; [discriminate|].
    apply in_sync_execute_wrapper.
  - apply in_sync_dispatch. intro w0. apply stays_in_sync_invoke.
Qed.

Lemma in_sync_protected_call f args w : in_sync (snd (protected_call f args w)).
Proof.
  unfold protected_call. destruct (iscoroutinefunction f) eqn:E.
  - rewrite snd_as_values. apply in_sync_call_async.
  - apply in_sync_call. rewrite E. apply andb_false_r.
Qed.
(** ** The exclusion list and the listeners *)

Lemma list_remove_None {A : Type} (eqb : A -> A -> bool) (x : A) (l : list A) :
  list_remove eqb x l = None <-> (forall y, In y l -> eqb y x = false).
Proof.
  induction l as [|y l IH]; simpl.
  - split; [intros _ y []|reflexivity].
  - destruct (eqb y x) eqn:E.
    + split; [discriminate|]. intro H. rewrite (H y (or_introl eq_refl)) in E. discriminate.
    + destruct (list_remove eqb x l) as [r|].
      * split; [discriminate|]. intro H.
        assert (Hn : Some r = None); [|discriminate].
        apply IH. intros z Hz. apply H. now right.
      * split; [|reflexivity]. intros _ z [<-|Hz]; [exact E|].
        now apply IH.
Qed.

Lemma list_remove_Some {A : Type} (eqb : A -> A -> bool) (x : A) (l r : list A) :
  list_remove eqb x l = Some r ->
  exists l1 y l2,
    l = l1 ++ y :: l2 /\ eqb y x = true /\
    (forall z, In z l1 -> eqb z x = false) /\ r = l1 ++ l2.
Proof.
  revert r. induction l as [|y l IH]; simpl; intros r H; [discriminate|].
  destruct (eqb y x) eqn:E.
  - inversion H; subst. exists [], y, r. repeat split; auto. intros z [].
  - destruct (list_remove eqb x l) as [r'|]; [|discriminate].
    inversion H; subst. destruct (IH r' eq_refl) as (l1 & y' & l2 & -> & Hy & Hl1 & ->).
    exists (y :: l1), y', l2. repeat split; auto.
    intros z [<-|Hz]; auto.
Qed.

Lemma occurrences_app {A : Type} (eqb : A -> A -> bool) (x : A) (l1 l2 : list A) :
  occurrences eqb x (l1 ++ l2) = (occurrences eqb x l1 + occurrences eqb x l2)%nat.
Proof. unfold occurrences. now rewrite filter_app, length_app. Qed.

Lemma occurrences_none {A : Type} (eqb : A -> A -> bool) (x : A) (l : list A) :
  (forall z, In z l -> eqb z x = false) -> occurrences eqb x l = 0%nat.
Proof.
  unfold occurrences. induction l as [|y l IH]; simpl; intro H; [reflexivity|].
  rewrite (H y (or_introl eq_refl)). apply IH. intros z Hz. apply H. now right.
Qed.

Lemma issubclass_by_name C E E' :
  ty_name E = ty_name E' -> issubclass C E = issubclass C E'.
Proof. unfold issubclass. now intros ->. Qed.

Lemma remove_excluded_breaker E w l :
  list_remove pytype_eqb E (_excluded_exception_types (breaker w)) = Some l ->
  exists w', remove_excluded_exception E w = Some w' /\
             breaker w' = with_excluded l (breaker w) /\
             clock w' = clock w /\ trace w' = trace w /\ next_obj w' = next_obj w.
Proof.
  intro H. unfold remove_excluded_exception. rewrite H. eexists. split; [reflexivity|].
  destruct w as [b clk tr nobj]. destruct b. repeat split.
Qed.

Lemma remove_listener_breaker l w ls :
  list_remove Nat.eqb l (_listeners (breaker w)) = Some ls ->
  exists w', remove_listener l w = Some w' /\
             breaker w' = with_listeners ls (breaker w) /\
             clock w' = clock w /\ trace w' = trace w /\ next_obj w' = next_obj w.
Proof.
  intro H. unfold remove_listener. rewrite H. eexists. split; [reflexivity|].
  destruct w as [b clk tr nobj]. destruct b. repeat split.
Qed.

(** Adding exclusions can only take errors out of the system errors: an
    error is a system error after [add_excluded_exception E] when it
    was one before and its class does not descend from [E], and
    likewise for the batch form. *)
Theorem exclusions_accumulate (w : World) (E : pytype) (Es : list pytype) (e : exception) :
  is_system_error (breaker (add_excluded_exception E w)) e =
    is_system_error (breaker w) e && negb (issubclass (type_of e) E) /\
  is_system_error (breaker (add_excluded_exceptions Es w)) e =
    is_system_error (breaker w) e && negb (issubclass_tuple (type_of e) Es).
Proof.
  split.
  - unfold is_system_error, add_excluded_exception, issubclass_tuple. simpl.
    rewrite existsb_app. simpl. rewrite orb_false_r. apply negb_orb.
  - assert (Hx : excluded_exceptions (breaker (add_excluded_exceptions Es w))
                 = excluded_exceptions (breaker w) ++ Es).
    { revert w. unfold add_excluded_exceptions.
      induction Es as [|E' Es' IH]; intro w; simpl.
      - now rewrite app_nil_r.
      - rewrite IH. unfold excluded_exceptions. simpl. now rewrite <- app_assoc. }
    unfold excluded_exceptions in Hx. unfold is_system_error, issubclass_tuple.
    rewrite Hx, existsb_app. apply negb_orb.
Qed.

(** [remove_excluded_exception] raises exactly when no class of that
    name is excluded; otherwise it takes out the first such entry and
    nothing else: later duplicates stay, and so do the storage, the
    state, the lock and the rest of the configuration. *)
Theorem remove_excluded_exception_first (w : World) (E : pytype) :
  (remove_excluded_exception E w = None <->
   forall E', In E' (excluded_exceptions (breaker w)) -> ty_name E' <> ty_name E) /\
  (forall w', remove_excluded_exception E w = Some w' ->
     exists l1 E' l2,
       excluded_exceptions (breaker w) = l1 ++ E' :: l2 /\
       ty_name E' = ty_name E /\
       (forall X, In X l1 -> ty_name X <> ty_name E) /\
       breaker w' = with_excluded (l1 ++ l2) (breaker w) /\
       occurrences pytype_eqb E (excluded_exceptions (breaker w)) =
         S (occurrences pytype_eqb E (excluded_exceptions (breaker w')))).
Proof.
  unfold excluded_exceptions. split.
  - unfold remove_excluded_exception.
    destruct (list_remove pytype_eqb E (_excluded_exception_types (breaker w))) as [l|] eqn:H.
    + split; [discriminate|]. intro Hn.
      assert (Hnone : list_remove pytype_eqb E (_excluded_exception_types (breaker w)) = None).
      { apply list_remove_None. intros y Hy. unfold pytype_eqb.
        apply String.eqb_neq. now apply Hn. }
      congruence.
    + split; [|reflexivity]. intros _ E' Hin.
      apply (proj1 (list_remove_None _ _ _) H) in Hin.
      unfold pytype_eqb in Hin. now apply String.eqb_neq.
  - intros w' Hr.
    destruct (list_remove pytype_eqb E (_excluded_exception_types (breaker w))) as [l|] eqn:H.
    + destruct (remove_excluded_breaker E w l H) as (w'' & Hw'' & Hb & _).
      rewrite Hr in Hw''. inversion Hw''; subst w''.
      destruct (list_remove_Some _ _ _ _ H) as (l1 & E' & l2 & Hl & HE & Hl1 & ->).
      exists l1, E', l2. unfold pytype_eqb in HE. apply String.eqb_eq in HE.
      split; [exact Hl|]. split; [exact HE|]. split.
      * intros X HX. apply String.eqb_neq. apply (Hl1 X HX).
      * split; [exact Hb|]. rewrite Hb, Hl. simpl.
        rewrite !occurrences_app. unfold occurrences at 2. simpl.
        unfold pytype_eqb at 2. rewrite HE, String.eqb_refl. simpl.
        fold (occurrences pytype_eqb E l2). lia.
    + unfold remove_excluded_exception in Hr. rewrite H in Hr. discriminate.
Qed.

(** Removing an exclusion right after adding it never raises, and
    leaves every error classified as before the two operations; when no
    class of that name was excluded before, the list is as it was. *)
Theorem add_then_remove_exclusion (w : World) (E : pytype) :
  exists w', remove_excluded_exception E (add_excluded_exception E w) = Some w' /\
    (forall e, is_system_error (breaker w') e = is_system_error (breaker w) e) /\
    (occurrences pytype_eqb E (excluded_exceptions (breaker w)) = 0%nat ->
     excluded_exceptions (breaker w') = excluded_exceptions (breaker w)).
Proof.
  set (w1 := add_excluded_exception E w).
  assert (Hx : _excluded_exception_types (breaker w1)
               = _excluded_exception_types (breaker w) ++ [E]) by reflexivity.
  destruct (list_remove pytype_eqb E (_excluded_exception_types (breaker w1))) as [l|] eqn:H.
  - destruct (remove_excluded_breaker E w1 l H) as (w' & Hw' & Hb & _).
    exists w'. split; [exact Hw'|].
    destruct (list_remove_Some _ _ _ _ H) as (l1 & E' & l2 & Hl & HE & Hl1 & ->).
    unfold pytype_eqb in HE. apply String.eqb_eq in HE.
    rewrite Hx in Hl.
    assert (Hcase : (l2 = [] /\ _excluded_exception_types (breaker w) = l1) \/
                    (exists l2', l2 = l2' ++ [E] /\
                                 _excluded_exception_types (breaker w) = l1 ++ E' :: l2')).
    { destruct l2 as [|z l2r].
      - left. split; [reflexivity|].
        apply (app_inj_tail (_excluded_exception_types (breaker w)) l1 E E') in Hl.
        apply Hl.
      - right.
        destruct (@exists_last _ (z :: l2r)) as (l2' & last & Hlast); [discriminate|].
        rewrite Hlast in Hl |- *. rewrite app_comm_cons, app_assoc in Hl.
        apply app_inj_tail in Hl. destruct Hl as [Hl <-].
        exists l2'. split; [reflexivity|exact Hl]. }
    split.
    + intro e. unfold is_system_error. rewrite Hb. simpl. f_equal.
      unfold issubclass_tuple.
      destruct Hcase as [[-> Hw]|(l2' & -> & Hw)]; rewrite Hw.
      * now rewrite app_nil_r.
      * repeat rewrite existsb_app. simpl. repeat rewrite existsb_app. simpl.
        rewrite (issubclass_by_name (type_of e) E' E HE).
        destruct (existsb (issubclass (type_of e)) l1),
                 (existsb (issubclass (type_of e)) l2'),
                 (issubclass (type_of e) E); reflexivity.
    + unfold excluded_exceptions. intro H0. rewrite Hb. simpl.
      destruct Hcase as [[-> Hw]|(l2' & -> & Hw)].
      * now rewrite Hw, app_nil_r.
      * rewrite Hw in H0. rewrite occurrences_app in H0.
        unfold occurrences at 2 in H0. simpl in H0.
        unfold pytype_eqb at 2 in H0. rewrite HE, String.eqb_refl in H0.
        simpl in H0. lia.
  - exfalso. apply (proj1 (list_remove_None _ _ _)) with (y := E) in H.
    + unfold pytype_eqb in H. rewrite String.eqb_refl in H. discriminate.
    + rewrite Hx. apply in_or_app. right. now left.
Qed.

Lemma remove_excluded_exception_first_witness :
  let w := add_excluded_exceptions [OSError_type; Exception_type; OSError_type] fresh3 in
  remove_excluded_exception ConnectionError_type w = None /\
  exists w', remove_excluded_exception OSError_type w = Some w' /\
             excluded_exceptions (breaker w') = [Exception_type; OSError_type].
Proof.
  intro w.
  destruct (remove_excluded_exception_first w ConnectionError_type) as (Hnone & _).
  destruct (remove_excluded_exception_first w OSError_type) as (_ & Hsome).
  split.
  - apply Hnone. intros E' [<-|[<-|[<-|[]]]]; discriminate.
  - eexists. split; [reflexivity|].
    destruct (Hsome _ eq_refl) as (l1 & E' & l2 & _ & _ & _ & Hb & _).
    reflexivity.
Defined.

Lemma add_then_remove_exclusion_witness :
  exists w', remove_excluded_exception OSError_type
               (add_excluded_exception OSError_type fresh3) = Some w' /\
             excluded_exceptions (breaker w') = excluded_exceptions (breaker fresh3).
Proof.
  destruct (add_then_remove_exclusion fresh3 OSError_type) as (w' & Hr & _ & Hl).
  exists w'. split; [exact Hr|]. apply Hl. reflexivity.
Defined.

(** [remove_listener] raises exactly when the listener is not
    registered; otherwise it takes out its first registration and
    nothing else, so that a listener registered twice is still
    registered once. *)
Theorem remove_listener_first (w : World) (l : listener) :
  (remove_listener l w = None <-> ~ In l (listeners (breaker w))) /\
  (forall w', remove_listener l w = Some w' ->
     exists l1 l2,
       listeners (breaker w) = l1 ++ l :: l2 /\ ~ In l l1 /\
       breaker w' = with_listeners (l1 ++ l2) (breaker w) /\
       occurrences Nat.eqb l (listeners (breaker w)) =
         S (occurrences Nat.eqb l (listeners (breaker w')))).
Proof.
  unfold listeners. split.
  - unfold remove_listener.
    destruct (list_remove Nat.eqb l (_listeners (breaker w))) as [ls|] eqn:H.
    + split; [discriminate|]. intro Hn.
      assert (Hnone : list_remove Nat.eqb l (_listeners (breaker w)) = None).
      { apply list_remove_None. intros y Hy. apply Nat.eqb_neq. intros ->. now apply Hn. }
      congruence.
    + split; [|reflexivity]. intros _ Hin.
      apply (proj1 (list_remove_None _ _ _) H) in Hin.
      rewrite Nat.eqb_refl in Hin. discriminate.
  - intros w' Hr.
    destruct (list_remove Nat.eqb l (_listeners (breaker w))) as [ls|] eqn:H.
    + destruct (remove_listener_breaker l w ls H) as (w'' & Hw'' & Hb & _).
      rewrite Hr in Hw''. inversion Hw''; subst w''.
      destruct (list_remove_Some _ _ _ _ H) as (l1 & y & l2 & Hl & Hy & Hl1 & ->).
      apply Nat.eqb_eq in Hy. subst y.
      exists l1, l2. split; [exact Hl|]. split.
      * intro Hin. apply Hl1 in Hin. rewrite Nat.eqb_refl in Hin. discriminate.
      * split; [exact Hb|]. rewrite Hb, Hl. simpl.
        rewrite !occurrences_app. unfold occurrences at 2. simpl.
        rewrite Nat.eqb_refl. simpl. fold (occurrences Nat.eqb l l2). lia.
    + unfold remove_listener in Hr. rewrite H in Hr. discriminate.
Qed.

Lemma remove_listener_first_witness :
  let w := add_listeners [4%nat; 9%nat; 4%nat] fresh3 in
  remove_listener 5%nat w = None /\
  exists w', remove_listener 4%nat w = Some w' /\ listeners (breaker w') = [9%nat; 4%nat].
Proof.
  intro w.
  destruct (remove_listener_first w 5%nat) as (Hnone & _).
  destruct (remove_listener_first w 4%nat) as (_ & Hsome).
  split.
  - apply Hnone. intros [H|[H|[H|[]]]]; discriminate.
  - eexists. split; [reflexivity|].
    destruct (Hsome _ eq_refl) as (l1 & l2 & _). reflexivity.
Defined.

(** A listener is notified in the order of registration: after
    [add_listener l], a manual transition tells the listeners that were
    there first, then [l], each once, of the same pair of states. *)
Theorem added_listener_notified_last (w : World) (l : listener) (tag : CircuitBreakerState) :
  let w1 := add_listener l w in
  let old := _state (breaker w) in
  let new := _state (breaker (manual tag w1)) in
  trace (manual tag w1) =
    trace w ++ notifications (breaker w) old new
            ++ [state_change l (self_id (breaker w)) (Some old) new] /\
  so_state new = tag.
Proof.
  intros w1 old new. subst w1 old new.
  assert (Hm : forall w0, manual tag w0 = transition_to tag w0) by (destruct tag; reflexivity).
  rewrite !Hm, !transition_to_eq. unfold notifications. simpl.
  rewrite map_app. simpl. split; [reflexivity|]. destruct tag; reflexivity.
Qed.

(** ** Reading the state *)

(** Reading [state] a second time returns the same object and changes
    nothing: a drift is noticed, and the listeners are told of it, only
    once. *)
Theorem state_read_twice (w : World) :
  state (snd (state w)) = (fst (state w), snd (state w)) /\
  trace (snd (state (snd (state w)))) = trace (snd (state w)).
Proof.
  assert (H : state (snd (state w)) = (fst (state w), snd (state w))).
  { pose proof (in_sync_state w) as Hs. unfold in_sync in Hs.
    unfold state at 1. rewrite Hs, tag_eqb_refl. simpl.
    unfold state. simpl. reflexivity. }
  split; [exact H|]. now rewrite H.
Qed.

(** Whatever was written to the storage before, the cached state
    object and the storage agree on the tag after a protected call of
    any function, after an awaited [call_async], after a reading of
    [state] and after a manual transition.  They agree after [call] too,
    with one exception: a marked closure of a coroutine function handed
    to [call] is returned as a coroutine object that nobody has awaited,
    so that [state] is not read and the breaker is left exactly as it
    was, drift included. *)
Theorem drift_repaired (w : World) (f : callable) (args : list pyvalue)
    (tag : CircuitBreakerState) :
  in_sync (snd (protected_call f args w)) /\
  in_sync (snd (call_async f args w)) /\
  (if getattr_ignore_on_call f && iscoroutinefunction f
   then call f args w = (Returns (CoroutineObject f args), w)
   else in_sync (snd (call f args w))) /\
  in_sync (snd (state w)) /\
  in_sync (manual tag w).
Proof.
  split; [apply in_sync_protected_call|]. split; [apply in_sync_call_async|].
  split.
  - destruct (getattr_ignore_on_call f && iscoroutinefunction f) eqn:E.
    + now apply call_marked_coroutine.
    + now apply in_sync_call.
  - split; [apply in_sync_state|].
    replace (manual tag w) with (transition_to tag w) by (destruct tag; reflexivity).
    apply in_sync_transition.
Qed.

Ltac configured_steps :=
  first [ apply configured_alike_trans | apply configured_alike_state
        | apply configured_alike_locked
        | intros; apply same_config_refl
        | let w0 := fresh in intro w0; first [apply (follows_reset w0) | apply (follows_inc w0)]
        | let t := fresh in let w0 := fresh in intros t w0; apply (follows_transition t w0) ].

(** A call through the breaker, of a plain function or of closures of
    the decorator nested to any depth, and whatever its outcome, leaves
    the threshold, the timeout, the exclusions, the listeners, the name,
    the identity of the breaker and the depth of its lock as they
    were. *)
Theorem call_keeps_configuration (f : callable) (args : list pyvalue) (w : World) :
  same_config (breaker (snd (call f args w))) (breaker w) /\
  same_config (breaker (snd (call_async f args w))) (breaker w).
Proof.
  split.
  - apply (kept_call configured_alike); configured_steps.
  - apply (kept_call_async configured_alike); configured_steps.
Qed.

(** ** Breakers in use *)

Lemma settles_fold {A : Type} (step : A -> World -> World) (l : list A) :
  (forall a w, settles w (step a w)) ->
  forall w, settles w (fold_left (fun w0 a => step a w0) l w).
Proof.
  intro Hs. induction l as [|a l IH]; intro w; simpl.
  - apply settles_refl.
  - eapply settles_trans; [apply Hs|apply IH].
Qed.

Lemma settles_with_lock_update (g : CircuitBreaker -> CircuitBreaker) w :
  (forall b, self_id (g b) = self_id b /\ _lock (g b) = _lock b /\
             _decorated_functions (g b) = _decorated_functions b /\
             _state (g b) = _state b) ->
  settles w (release (on_breaker g (acquire w))).
Proof.
  intro Hg. destruct w as [b clk tr nobj].
  destruct (Hg (with_lock_depth (S (_lock b)) b)) as (H1 & H2 & H3 & H4).
  unfold settles. simpl in *. rewrite H1, H2, H3, H4. simpl.
  repeat split; auto.
Qed.

Lemma settles_perform op w : settles w (perform op w).
Proof.
  destruct op; cbn [perform].
  - apply settles_call.
  - apply settles_call_async.
  - apply settles_transition.
  - apply settles_transition.
  - apply settles_transition.
  - apply settles_state.
  - now apply settles_quiet.
  - now apply settles_quiet.
  - now apply settles_quiet.
  - apply (settles_with_lock_update
             (fun b => with_excluded (_excluded_exception_types b ++ [E]) b)).
    intro b. repeat split.
  - apply (settles_fold add_excluded_exception). intros E w0.
    apply (settles_with_lock_update
             (fun b => with_excluded (_excluded_exception_types b ++ [E]) b)).
    intro b. repeat split.
  - unfold remove_excluded_exception.
    destruct (list_remove pytype_eqb E _) as [l|]; cbn [or_default].
    + apply (settles_with_lock_update (with_excluded l)). intro b. repeat split.
    + apply settles_refl.
  - apply (settles_with_lock_update (fun b => with_listeners (_listeners b ++ [l]) b)).
    intro b. repeat split.
  - apply (settles_fold add_listener). intros l w0.
    apply (settles_with_lock_update (fun b => with_listeners (_listeners b ++ [l]) b)).
    intro b. repeat split.
  - unfold remove_listener.
    destruct (list_remove Nat.eqb l _) as [ls|]; cbn [or_default].
    + apply (settles_with_lock_update (with_listeners ls)). intro b. repeat split.
    + apply settles_refl.
  - unfold __call__.
    destruct call_args as [|[v|f|c] [|o' rest]]; cbn [snd]; apply settles_refl.
  - now apply settles_quiet.
  - now apply settles_quiet.
Qed.

Lemma at_rest_settles id w w' : at_rest id w -> settles w w' -> at_rest id w'.
Proof.
  unfold at_rest, settles.
  intros (A1 & A2 & A3 & A4 & A5) (B1 & B2 & B3 & B4 & B5 & B6).
  repeat split; try congruence.
  - rewrite B5; congruence.
  - apply B6. exact A5.
Qed.

Lemma at_rest_init a id now : at_rest id (__init__ a id now).
Proof. unfold at_rest. simpl. repeat split. lia. Qed.

Lemma at_rest_perform_all ops :
  forall id w, at_rest id w -> at_rest id (perform_all ops w).
Proof.
  unfold perform_all. induction ops as [|op ops IH]; intros id w H; simpl.
  - exact H.
  - apply IH. eapply at_rest_settles; [exact H|apply settles_perform].
Qed.

(** However a breaker is built and whatever is then done with it, by
    its own operations, by the passing of time or by another actor that
    writes to its storage: between two operations its lock is free, and
    its cached state object is bound to it and was allocated for it. *)
Theorem breaker_at_rest (a : init_args) (id : nat) (now : datetime) (ops : list operation) :
  let w := perform_all ops (__init__ a id now) in
  self_id (breaker w) = id /\
  _lock (breaker w) = 0%nat /\
  so_breaker (_state (breaker w)) = id /\
  (so_id (_state (breaker w)) < next_obj w)%nat.
Proof.
  intro w. destruct (at_rest_perform_all ops id _ (at_rest_init a id now))
    as (H1 & H2 & _ & H4 & H5).
  repeat split; assumption.
Qed.

(** Nothing ever registers a function as decorated: on a breaker built
    by [__init__], after any operations, decorations included,
    [_is_decorated_function] answers no for every function, the
    closures returned by the decorator among them. *)
Theorem never_registered_as_decorated (a : init_args) (id : nat) (now : datetime)
    (ops : list operation) (func : callable) (ignore : bool) :
  let w := perform_all ops (__init__ a id now) in
  _is_decorated_function (breaker w) func = false /\
  _is_decorated_function (breaker w) (_outer_wrapper ignore func) = false /\
  _is_decorated_function
    (breaker (snd (__call__ [ObjFunction func] ignore w))) func = false.
Proof.
  intro w. destruct (at_rest_perform_all ops id _ (at_rest_init a id now))
    as (_ & _ & H3 & _).
  fold w in H3. unfold _is_decorated_function. simpl. rewrite H3. auto.
Qed.

Lemma stays_in_sync_perform op w :
  is_external_write op = false -> stays_in_sync w (perform op w).
Proof.
  intro Hop. destruct op; cbn [perform]; try discriminate; intro Hs.
  - now apply stays_in_sync_call.
  - apply in_sync_call_async.
  - apply in_sync_transition.
  - apply in_sync_transition.
  - apply in_sync_transition.
  - apply in_sync_state.
  - exact Hs.
  - exact Hs.
  - exact Hs.
  - exact Hs.
  - clear Hop. revert w Hs. unfold add_excluded_exceptions.
    induction Es as [|E Es IH]; intros w Hs; simpl; [exact Hs|]. apply IH. exact Hs.
  - unfold remove_excluded_exception.
    destruct (list_remove pytype_eqb E _) as [l|]; cbn [or_default]; exact Hs.
  - exact Hs.
  - clear Hop. revert w Hs. unfold add_listeners.
    induction ls as [|l ls IH]; intros w Hs; simpl; [exact Hs|]. apply IH. exact Hs.
  - unfold remove_listener.
    destruct (list_remove Nat.eqb l _) as [ls|]; cbn [or_default]; exact Hs.
  - unfold __call__.
    destruct call_args as [|[v|f|c] [|o' rest]]; cbn [snd]; exact Hs.
  - exact Hs.
Qed.

(** A breaker that is the only writer of its storage never drifts:
    after any operations of its own and any passing of time, the cached
    state object and the storage agree on the tag, so that reading
    [state] notifies nobody. *)
Theorem sole_writer_never_drifts (a : init_args) (id : nat) (now : datetime)
    (ops : list operation) :
  forallb (fun op => negb (is_external_write op)) ops = true ->
  let w := perform_all ops (__init__ a id now) in
  in_sync w /\ state w = (_state (breaker w), w).
Proof.
  intros Hops w.
  assert (Hs : in_sync w).
  { subst w. unfold perform_all.
    assert (H0 : in_sync (__init__ a id now)).
    { unfold in_sync, current_state, so_state. simpl.
      destruct (sto_state _); reflexivity. }
    revert H0 Hops. generalize (__init__ a id now).
    induction ops as [|op ops IH]; intros w0 H0 Hops; simpl in *; [exact H0|].
    apply andb_true_iff in Hops. destruct Hops as [Hop Hops].
    apply IH; [|exact Hops].
    apply stays_in_sync_perform; [|exact H0].
    now apply negb_true_iff. }
  split; [exact Hs|].
  unfold state. unfold in_sync in Hs. rewrite Hs, tag_eqb_refl. reflexivity.
Qed.

Lemma sole_writer_never_drifts_witness :
  let w := perform_all [Call failing []; Open; Elapse 70000000; Call working [];
                        AddListener 3%nat; Close; SetFailMax 1; Call failing []]
             (__init__ no_args 1%nat 0) in
  in_sync w /\ state w = (_state (breaker w), w).
Proof.
  apply (sole_writer_never_drifts no_args 1%nat 0). reflexivity.
Defined.

(** ** Construction on a given storage *)

(** A breaker built on a storage it is handed adopts it as it is: the
    tag and the failure count are those of the storage, the first state
    object carries that tag (an Open one is entered at the time of
    construction), nobody is notified and nothing is reset. *)
Theorem init_adopts_storage (a : init_args) (id : nat) (now : datetime)
    (s : CircuitBreakerStorage) :
  arg_state_storage a = Some s ->
  let w := __init__ a id now in
  _state_storage (breaker w) = s /\
  current_state (breaker w) = sto_state s /\
  fail_counter (breaker w) = sto_counter s /\
  _state (breaker w) = make_state 0 id (sto_state s) now /\
  in_sync w /\
  trace w = [] /\
  (sto_state s = OPEN -> is_open_since now w).
Proof.
  intros Ha w. subst w. unfold __init__, in_sync, current_state, fail_counter, is_open_since.
  rewrite Ha. simpl.
  split; [reflexivity|]. split; [reflexivity|]. split; [reflexivity|].
  split; [reflexivity|]. split; [destruct (sto_state s); reflexivity|].
  split; [reflexivity|]. intro Ho. rewrite Ho. split; [exact Ho|reflexivity].
Qed.

Lemma init_adopts_storage_witness :
  let s := {| sto_state := OPEN; sto_counter := 4 |} in
  let w := __init__ {| arg_fail_max := None; arg_timeout_duration := None;
                       arg_exclude := None; arg_listeners := Some [7%nat];
                       arg_state_storage := Some s; arg_name := None |} 1%nat 100 in
  fail_counter (breaker w) = 4 /\ trace w = [] /\ is_open_since 100 w.
Proof.
  intros s w.
  destruct (init_adopts_storage
              {| arg_fail_max := None; arg_timeout_duration := None;
                 arg_exclude := None; arg_listeners := Some [7%nat];
                 arg_state_storage := Some s; arg_name := None |} 1%nat 100 s eq_refl)
    as (_ & _ & Hc & _ & _ & Ht & Ho).
  split; [exact Hc|]. split; [exact Ht|]. apply Ho. reflexivity.
Defined.

(** ** Decorating more than once, and without the marking *)

Lemma iscoroutinefunction_decorate n ign f :
  iscoroutinefunction (decorate n ign f) = iscoroutinefunction f.
Proof. induction n as [|n IH]; [reflexivity|]. cbn [decorate]. exact IH. Qed.

Lemma execute_decorate n nm co body d args w :
  execute (decorate (S n) true (PyFunction nm co body d)) args w =
  dispatch (run_body nm body d args) w.
Proof.
  induction n as [|n IH]; [reflexivity|].
  change (decorate (S (S n)) true (PyFunction nm co body d))
    with (InnerWrapper true (decorate (S n) true (PyFunction nm co body d))).
  rewrite execute_wrapper. exact IH.
Qed.

(** Decorating a function any number of times with the default marking
    still accounts for a call once: the decorated function, invoked as
    its kind calls for (called when blocking, awaited when a coroutine
    function) or handed to the entry point of its kind, does exactly
    what one protected call of the function itself does; every layer is
    a coroutine function exactly when the function is one; and a
    decorated coroutine function handed to [call] is only made into a
    coroutine object, with nothing accounted. *)
Theorem nested_decoration_accounted_once (n : nat)
    (nm : string) (co : bool) (body : list pyvalue -> outcome) (d : timedelta)
    (args : list pyvalue) (w : World) :
  let func := PyFunction nm co body d in
  protected_invocation (decorate (S n) true func) args w = protected_call func args w /\
  protected_call (decorate n true func) args w = protected_call func args w /\
  iscoroutinefunction (decorate n true func) = co /\
  (co = true ->
   call (decorate (S n) true func) args w =
   (Returns (CoroutineObject (decorate (S n) true func) args), w)).
Proof.
  intro func.
  assert (Hco : forall m, iscoroutinefunction (decorate m true func) = co)
    by (intro m; apply iscoroutinefunction_decorate).
  assert (Hi : forall m, protected_invocation (decorate (S m) true func) args w =
                         protected_call func args w).
  { intro m. unfold func. rewrite protected_call_plain.
    unfold protected_invocation. rewrite invoke_await_by_kind. unfold invoke. fold func.
    rewrite (Hco (S m)). unfold func. rewrite execute_decorate.
    destruct co; reflexivity. }
  split; [apply Hi|]. split; [|split; [apply Hco|]].
  - destruct n as [|n]; [reflexivity|]. rewrite <- (Hi n).
    unfold protected_call, protected_invocation, call, call_async. reflexivity.
  - intro Hc. apply call_marked_coroutine. rewrite (Hco (S n)), Hc. reflexivity.
Qed.

Lemma nested_decoration_accounted_once_witness :
  call (decorate 2 true working_async) [] fresh3 =
  (Returns (CoroutineObject (decorate 2 true working_async) []), fresh3).
Proof.
  destruct (nested_decoration_accounted_once 1 "fetch" true (fun _ => Returns (VInt 200)) 5
              [] fresh3) as (_ & _ & _ & H).
  apply H. reflexivity.
Defined.

(** The protected call of an unmarked closure of a plain function is a
    dispatch of a dispatch of the run of its body. *)
Lemma protected_call_unmarked nm co body d args w :
  protected_call (_outer_wrapper false (PyFunction nm co body d)) args w =
  as_values (dispatch (dispatch (run_body nm body d args)) w).
Proof.
  destruct co.
  - reflexivity.
  - change (protected_call (_outer_wrapper false (PyFunction nm false body d)) args w)
      with (dispatch (fun w0 => as_values (dispatch (run_body nm body d args) w0)) w).
    apply dispatch_as_values.
Qed.

(** A wrapper made with [ignore_on_call=False] and handed to the entry
    point of its kind ([call] for a blocking function, an awaited
    [call_async] for a coroutine function) is accounted for twice: on a
    Closed breaker one failure of the function is dispatched twice and
    adds two to the failure counter, so that the breaker opens as soon
    as the counter plus two reaches the threshold, though the function
    ran once. *)
Theorem unmarked_wrapper_counts_twice
    (nm : string) (co : bool) (body : list pyvalue -> outcome) (d : timedelta)
    (args : list pyvalue) (e : exception) (w : World) :
  is_closed w -> body args = Raises e -> is_system_error (breaker w) e = true ->
  let r := protected_call (_outer_wrapper false (PyFunction nm co body d)) args w in
  fst r = Raises e /\
  fail_counter (breaker (snd r)) = fail_counter (breaker w) + 2 /\
  dispatches (trace (snd r)) = S (S (dispatches (trace w))) /\
  executions (trace (snd r)) = S (executions (trace w)) /\
  (fail_counter (breaker w) + 2 < fail_max (breaker w) -> is_closed (snd r)) /\
  (fail_max (breaker w) <= fail_counter (breaker w) + 2 ->
   current_state (breaker (snd r)) = OPEN).
Proof.
  intros [Ht Hv] Hb He. rewrite protected_call_unmarked.
  destruct w as [b clk tr nobj].
  destruct b as [sid lk sto st fmax tmo excl lsn bname decorated].
  destruct sto as [stag scnt]. destruct st as [oid owner ovar].
  unfold_views. simpl in *. subst.
  unfold as_values, dispatch, with_lock, state, state_call, closed_call, run_body; simpl.
  rewrite Hb. unfold is_system_error in *; simpl in *. rewrite He.
  unfold fail_max, fail_counter; simpl.
  destruct (Z.leb_spec fmax (scnt + 1)); simpl; rewrite He; simpl.
  - destruct (Z.leb_spec fmax (scnt + 1 + 1)); [|lia]. simpl.
    split; [reflexivity|]. split; [lia|]. split; [count_events|].
    split; [count_events|]. split; [lia|reflexivity].
  - destruct (Z.leb_spec fmax (scnt + 1 + 1)); simpl;
      (split; [reflexivity|]); (split; [lia|]); (split; [count_events|]);
      (split; [count_events|]); split; try lia; try reflexivity.
    + intros _. split; reflexivity.
Qed.

Lemma unmarked_wrapper_counts_twice_witness :
  let r := protected_call (_outer_wrapper false failing) [] fresh3 in
  fail_counter (breaker (snd r)) = 2 /\ executions (trace (snd r)) = 1%nat /\
  is_closed (snd r).
Proof.
  intro r.
  destruct (unmarked_wrapper_counts_twice "fetch" false (fun _ => Raises refused) 5 []
              refused fresh3) as (_ & Hc & _ & Hx & Hcl & _).
  - split; reflexivity.
  - reflexivity.
  - reflexivity.
  - split; [exact Hc|]. split; [exact Hx|]. apply Hcl. reflexivity.
Defined.


(** ** Assigning the state without the storage *)

(** The setter of [state] caches and announces the new state but does
    not write the storage: when the tag differs from the one in the
    storage, the next reading of [state] goes back to the storage's tag
    and announces that too. *)
Theorem state_setter_does_not_stick (w : World) (tag : CircuitBreakerState) :
  current_state (breaker w) <> tag ->
  let w1 := set_state tag w in
  let first := _state (breaker w1) in
  so_state first = tag /\
  current_state (breaker w1) = current_state (breaker w) /\
  so_state (fst (state w1)) = current_state (breaker w) /\
  trace (snd (state w1)) =
    trace w ++ notifications (breaker w) (_state (breaker w)) first
            ++ notifications (breaker w) first (fst (state w1)).
Proof.
  intros Hne w1 first. subst w1 first.
  destruct w as [b clk tr nobj].
  destruct b as [sid lk sto st fmax tmo excl lsn bname decorated].
  destruct sto as [stag scnt]. unfold current_state in *. simpl in *.
  unfold state, set_state, with_lock, notifications, current_state, so_state.
  destruct tag, stag; try congruence; simpl; rewrite <- ?app_assoc; repeat split.
Qed.

Lemma state_setter_does_not_stick_witness :
  so_state (_state (breaker (set_state OPEN fresh3))) = OPEN /\
  so_state (fst (state (set_state OPEN fresh3))) = CLOSED.
Proof.
  destruct (state_setter_does_not_stick fresh3 OPEN) as (H1 & _ & H3 & _).
  - discriminate.
  - split; [exact H1|exact H3].
Defined.

(** ** The lock under several callers *)

Import Scheduling.

Lemma step_exclusive t1 t2 s c c' :
  t1 <> t2 -> exclusive t1 t2 c -> step s c = Some c' -> exclusive t1 t2 c'.
Proof.
  intros Hne (H1 & H2 & Hl) Hs.
  destruct c as [l [th1 k1 p1] [th2 k2 p2]]. simpl in H1, H2. subst th1 th2.
  assert (E12 : Nat.eqb t1 t2 = false) by (apply Nat.eqb_neq; exact Hne).
  assert (E21 : Nat.eqb t2 t1 = false) by (apply Nat.eqb_neq; congruence).
  destruct s as [[|] a]; destruct a;
    destruct p1 as [|[|]|]; destruct p2 as [|[|]|];
    unfold exclusive, inside in Hl; simpl in Hl; try contradiction; subst;
    unfold step, task_step, occupies, rlock_acquire, rlock_release in Hs;
    simpl in Hs; rewrite ?E12, ?E21, ?Nat.eqb_refl in Hs; simpl in Hs;
    try discriminate;
    try (destruct k1; try discriminate); try (destruct k2; try discriminate);
    inversion Hs; subst; unfold exclusive, inside; simpl; auto.
Qed.

(** Callers on different threads are never both inside the block, and the
    lock is free again when both have left it. *)
Lemma threads_serialized t1 k1 t2 k2 schedule :
  t1 <> t2 ->
  forall c, run schedule (start t1 k1 t2 k2) = Some c ->
  both_inside c = false /\
  (t_at (first c) = Finished -> t_at (second c) = Finished -> lock c = RLock_new).
Proof.
  intros Hne.
  assert (Hinv : forall sch c0 c, exclusive t1 t2 c0 -> run sch c0 = Some c ->
                                  exclusive t1 t2 c).
  { induction sch as [|s sch IH]; intros c0 c H0 Hr; simpl in Hr.
    - inversion Hr; subst; exact H0.
    - destruct (step s c0) as [c1|] eqn:Hs; [|discriminate].
      eapply IH; [|exact Hr]. eapply step_exclusive; eauto. }
  intros c Hr.
  assert (Hc : exclusive t1 t2 c).
  { eapply Hinv; [|exact Hr]. unfold exclusive, start; simpl. auto. }
  destruct Hc as (_ & _ & Hl). unfold both_inside, inside in *.
  destruct (t_at (first c)), (t_at (second c)); simpl in *;
    try contradiction; split; try reflexivity; intros; try discriminate; auto.
Qed.

(** C9 (serialized calls), on the code.  Two awaited calls on the thread
    of one event loop: the first enters the block and is parked at the
    [await] of its function; the second then acquires the lock, which
    its thread already owns, and enters too.  Both are inside the
    dispatch at once, each holding the lock. *)
Theorem coroutines_interleave :
  exists c,
    run [(First, Enter); (First, Suspend); (Second, Enter)]
        (start 0%nat Awaited 0%nat Awaited) = Some c /\
    both_inside c = true /\
    lock c = {| owner := Some 0%nat; level := 2 |}.
Proof. eexists. repeat split. Qed.

Lemma threads_serialized_witness :
  exists c,
    run [(First, Enter); (First, Leave); (Second, Enter)]
        (start 1%nat Blocking 2%nat Awaited) = Some c /\
    both_inside c = false.
Proof.
  eexists. split; [reflexivity|].
  apply (threads_serialized 1%nat Blocking 2%nat Awaited
           [(First, Enter); (First, Leave); (Second, Enter)]).
  - discriminate.
  - reflexivity.
Defined.

